(** * cluster/connpool.go: the per-address connection pool of the cluster client

    A shallow embedding of [connArray] (a fixed array of gRPC client
    connections selected round-robin) and of [rpcClient] (the registry
    address -> *connArray with its closed flag), followed by the properties
    of the pool that the specification states.

    Modelling decisions, in one place:
    - [*grpc.ClientConn] is a nullable pointer: [option conn].  The transport
      library is outside the repository; what the pool does to it is recorded
      as a trace of [event]s (every [grpc.DialContext] and every
      [ClientConn.Close] call, with the error it returned).  The outcome of
      each call is chosen by the environment: two oracles that see the whole
      history, so every behaviour of the transport is covered.
    - [uint32] is a [Z] with its wrap-around modulo 2^32 written out.
    - [*connArray] is a location in a heap of [connArray] values; two
      pointers are the same instance iff they are the same location.
    - [sync.RWMutex]: every access to the fields of [rpcClient] happens inside
      a critical section and the only sections that write hold the exclusive
      lock, so a critical section is one atomic step of a goroutine.
      Concurrency is then the interleaving of these steps under an arbitrary
      schedule. *)

From stdpp Require Import gmap strings list fin_maps.
From Stdlib Require Import ZArith Lia.

Local Open Scope Z_scope.

(** ** Errors, connections and the transport trace *)

(** Go [error] values: the one the pool makes itself with [errors.New], and
    the opaque errors returned by the transport library. *)
Inductive error : Type :=
  | errors_New (msg : string)
  | TransportError (code : nat).

(** A connection is named by the position of its dial in the trace. *)
Abbreviation conn := nat (only parsing).

Inductive event : Type :=
  | EvDial (addr : string) (r : option error)
  | EvClose (c : conn) (r : option error).

Abbreviation trace := (list event) (only parsing).

(** Run-time panics of the Go code. *)
Inductive panic : Type :=
  | DivideByZero
  | IndexOutOfRange.

Inductive outcome (A : Type) : Type :=
  | Ret (a : A)
  | Panic (p : panic).
Arguments Ret {A} a.
Arguments Panic {A} p.

(** The result of a Go function returning [(T, error)]. *)
Inductive result (A : Type) : Type :=
  | Ok (a : A)
  | Err (e : error).
Arguments Ok {A} a.
Arguments Err {A} e.

(** [type connArray struct { index uint32; v []*grpc.ClientConn }] *)
Record connArray : Type := mkConnArray {
  index : Z;
  v : list (option conn);
}.

Definition uint32_max : Z := 2 ^ 32.

(** [uint32(x)] for a non-negative integer [x]. *)
Definition uint32 (x : Z) : Z := x mod uint32_max.

(** The connections of a trace: [dialed tr c] when the dial numbered [c]
    succeeded, [close_called tr c] when [Close] was called on [c] after that
    dial, and a connection is open between the two. *)
Definition dialed (tr : trace) (c : conn) : Prop :=
  ∃ addr, tr !! c = Some (EvDial addr None).

Definition close_called (tr : trace) (c : conn) : Prop :=
  ∃ r, EvClose c r ∈ drop (S c) tr.

Definition is_open (tr : trace) (c : conn) : Prop :=
  dialed tr c ∧ ¬ close_called tr c.

(** The addresses dialed and the connections closed, in call order. *)
Definition dial_log (tr : trace) : list string :=
  omap (λ e, match e with EvDial addr _ => Some addr | EvClose _ _ => None end) tr.

Definition close_log (tr : trace) : list conn :=
  omap (λ e, match e with EvClose c _ => Some c | EvDial _ _ => None end) tr.

(** [*connArray]: a location of the heap. *)
Abbreviation loc := nat (only parsing).

(** [type rpcClient struct { sync.RWMutex; isClosed bool;
    conns map[string]*connArray }] *)
Record rpcClient : Type := mkRpcClient {
  isClosed : bool;
  conns : gmap string loc;
}.

(** The client, the arrays it points to and the transport trace. *)
Record State : Type := mkState {
  client : rpcClient;
  heap : list connArray;
  net : trace;
}.

(** [func newRPCClient() *rpcClient] *)
Definition newRPCClient : rpcClient := mkRpcClient false ∅.

(** Go leaves the iteration order of a map unspecified: a [map_range] is any
    way of listing the entries of a map, each exactly once. *)
Record map_range : Type := mkMapRange {
  range_of :> gmap string loc → list (string * loc);
  range_perm : ∀ m, range_of m ≡ₚ map_to_list m;
}.

(** One such order, used to run the examples. *)
Definition canonical_range : map_range :=
  mkMapRange map_to_list (λ m, reflexivity (map_to_list m)).

(** An array after [Close]: same counter, same number of slots, all null. *)
Definition nulled (a : connArray) : connArray :=
  mkConnArray (index a) (replicate (length (v a)) None).

Section ConnArray.

(** The environment: what the next dial and the next close return, given
    everything that happened so far. *)
Variable dial_result : trace → string → option error.
Variable close_result : trace → conn → option error.

(** [grpc.DialContext(ctx, addr)] with its two-second timeout: the call is
    recorded, and a successful dial yields a fresh connection. *)
Definition DialContext (addr : string) (tr : trace) : result conn * trace :=
  let r := dial_result tr addr in
  let tr' := tr ++ [EvDial addr r] in
  match r with
  | Some err => (Err err, tr')
  | None => (Ok (length tr), tr')
  end.

(** The next [n] dials of [addr] all succeed. *)
Definition dials_ok (addr : string) (tr : trace) (n : nat) : Prop :=
  ∀ j, (j < n)%nat → dial_result (tr ++ replicate j (EvDial addr None)) addr = None.

(** [func (cc *ClientConn) Close() error] of the transport library. *)
Definition ClientConn_Close (c : conn) (tr : trace) : option error * trace :=
  let r := close_result tr c in
  (r, tr ++ [EvClose c r]).

(** The trace after [Close] has been called on the connections [cs], one
    after the other. *)
Fixpoint close_all (cs : list conn) (tr : trace) : trace :=
  match cs with
  | [] => tr
  | c :: cs' => close_all cs' (snd (ClientConn_Close c tr))
  end.

(** The body of the loop of [Close], for the indices [ix] still to visit:
    [if c != nil { err := c.Close(); ...; a.v[i] = nil }]. *)
Fixpoint Close_loop (ix : list nat) (a : connArray) (tr : trace)
  : connArray * trace :=
  match ix with
  | [] => (a, tr)
  | i :: ix' =>
      match v a !! i with
      | Some (Some c) =>
          let '(err, tr1) := ClientConn_Close c tr in
          (* the error is dropped: "TODO: error handling" *)
          let a1 := mkConnArray (index a) (<[i := None]> (v a)) in
          Close_loop ix' a1 tr1
      | _ => Close_loop ix' a tr
      end
  end.

(** [func (a *connArray) Close()] *)
Definition Close (a : connArray) (tr : trace) : connArray * trace :=
  Close_loop (seq 0 (length (v a))) a tr.

(** The loop of [init] for the indices [ix] still to visit. *)
Fixpoint init_loop (addr : string) (ix : list nat) (a : connArray) (tr : trace)
  : option error * connArray * trace :=
  match ix with
  | [] => (None, a, tr)
  | i :: ix' =>
      let '(r, tr1) := DialContext addr tr in
      match r with
      | Err err =>
          (* Cleanup if the initialization fails. *)
          let '(a1, tr2) := Close a tr1 in
          (Some err, a1, tr2)
      | Ok c =>
          init_loop addr ix' (mkConnArray (index a) (<[i := Some c]> (v a))) tr1
      end
  end.

(** [func (a *connArray) init(addr string, options ...grpc.DialOption) error] *)
Definition init (addr : string) (a : connArray) (tr : trace)
  : option error * connArray * trace :=
  init_loop addr (seq 0 (length (v a))) a tr.

(** [func (a *connArray) Get() *grpc.ClientConn]: the counter is incremented
    first (and stays incremented if the modulo then panics). *)
Definition Get (a : connArray) : outcome (option conn) * connArray :=
  let new := uint32 (index a + 1) in
  let a' := mkConnArray new (v a) in
  let n := uint32 (Z.of_nat (length (v a))) in
  if decide (n = 0) then (Panic DivideByZero, a')
  else
    match v a !! Z.to_nat (new mod n) with
    | Some c => (Ret c, a')
    | None => (Panic IndexOutOfRange, a')
    end.

(** [n] consecutive calls of [Get] on the same array. *)
Fixpoint Gets (n : nat) (a : connArray) : list (outcome (option conn)) * connArray :=
  match n with
  | O => ([], a)
  | S n' =>
      let '(r, a1) := Get a in
      let '(rs, a2) := Gets n' a1 in
      (r :: rs, a2)
  end.

(** ** The pool *)

(** [a := &connArray{index: 0, v: make([]*grpc.ClientConn, maxSize)}]
    allocates the array at the next free location; when [init] fails the
    function returns [nil, err] and the allocated array is garbage. *)
Definition newConnArray (maxSize : nat) (addr : string)
    (h : list connArray) (tr : trace) : result loc * list connArray * trace :=
  let a := mkConnArray 0 (replicate maxSize None) in
  let l := length h in
  let '(err, a1, tr1) := init addr a tr in
  let h1 := h ++ [a1] in
  match err with
  | Some e => (Err e, h1, tr1)
  | None => (Ok l, h1, tr1)
  end.

(** The order in which [range] visits the entries of [c.conns]. *)
Variable range : map_range.

(** [array.Close()] through the pointer [l]. *)
Definition Close_at (l : loc) (h : list connArray) (tr : trace)
  : list connArray * trace :=
  match h !! l with
  | Some a => let '(a1, tr1) := Close a tr in (<[l := a1]> h, tr1)
  | None => (h, tr)
  end.

Fixpoint Close_each (ls : list loc) (h : list connArray) (tr : trace)
  : list connArray * trace :=
  match ls with
  | [] => (h, tr)
  | l :: ls' => let '(h1, tr1) := Close_at l h tr in Close_each ls' h1 tr1
  end.

(** [func (c *rpcClient) createConnArray(addr string)], which returns a
    [*connArray] and an [error]; the whole body runs under [c.Lock()]. *)
Definition createConnArray (addr : string) (st : State) : result loc * State :=
  match conns (client st) !! addr with
  | Some array => (Ok array, st)
  | None =>
      (* TODO: make conn count configurable *)
      let '(r, h1, tr1) := newConnArray 10 addr (heap st) (net st) in
      match r with
      | Err err => (Err err, mkState (client st) h1 tr1)
      | Ok array =>
          (Ok array,
           mkState (mkRpcClient (isClosed (client st))
                                (<[addr := array]> (conns (client st))))
                   h1 tr1)
      end
  end.

(** [func (c *rpcClient) getConnArray(addr string)], which returns a
    [*connArray] and an [error]; here run without interruption. *)
Definition getConnArray (addr : string) (st : State) : result loc * State :=
  if isClosed (client st) then (Err (errors_New "rpc client is closed"), st)
  else
    match conns (client st) !! addr with
    | Some array => (Ok array, st)
    | None =>
        match createConnArray addr st with
        | (Err err, st1) => (Err err, st1)
        | (Ok array, st1) => (Ok array, st1)
        end
    end.

(** [func (c *rpcClient) closeConns()] *)
Definition closeConns (st : State) : State :=
  if isClosed (client st) then st
  else
    let '(h1, tr1) :=
      Close_each (snd <$> range (conns (client st))) (heap st) (net st) in
    mkState (mkRpcClient true (conns (client st))) h1 tr1.

(** ** Goroutines

    A goroutine is at the entry of [getConnArray], between the [RUnlock] of
    [getConnArray] and the [Lock] of [createConnArray] (the address was
    missing when it looked), at the entry of [closeConns], or it has
    returned. *)
Inductive goroutine : Type :=
  | G_getConnArray (addr : string)
  | G_createConnArray (addr : string)
  | G_closeConns
  | G_returned (r : option (result loc)).

(** One critical section of a goroutine. *)
Definition step (g : goroutine) (st : State) : goroutine * State :=
  match g with
  | G_getConnArray addr =>
      if isClosed (client st)
      then (G_returned (Some (Err (errors_New "rpc client is closed"))), st)
      else
        match conns (client st) !! addr with
        | Some array => (G_returned (Some (Ok array)), st)
        | None => (G_createConnArray addr, st)
        end
  | G_createConnArray addr =>
      let '(r, st1) := createConnArray addr st in
      (G_returned (Some r), st1)
  | G_closeConns => (G_returned None, closeConns st)
  | G_returned r => (G_returned r, st)
  end.

(** The goroutine numbered [i] takes its next step. *)
Definition step_at (i : nat) (gs : list goroutine) (st : State)
  : list goroutine * State :=
  match gs !! i with
  | Some g => let '(g1, st1) := step g st in (<[i := g1]> gs, st1)
  | None => (gs, st)
  end.

(** A schedule names the goroutine that runs at each step. *)
Fixpoint run (sched : list nat) (gs : list goroutine) (st : State)
  : list goroutine * State :=
  match sched with
  | [] => (gs, st)
  | i :: sched' => let '(gs1, st1) := step_at i gs st in run sched' gs1 st1
  end.

End ConnArray.

(** ** Schedules and the goroutines of [getConnArray] *)

(** The number of steps the schedule gives to goroutine [i]. *)
Definition turns (i : nat) (sched : list nat) : nat :=
  length (filter (λ j, j = i) sched).

(** The number of critical sections a goroutine still has to run, at most. *)
Definition steps_left (g : goroutine) : nat :=
  match g with
  | G_getConnArray _ => 2
  | G_createConnArray _ | G_closeConns => 1
  | G_returned _ => 0
  end%nat.

(** A fresh client with nothing on the heap and nothing dialed yet. *)
Definition fresh : State := mkState newRPCClient [] [].

(** A goroutine of a program in which every goroutine calls
    [getConnArray addr]: it is somewhere in that call, or it has returned an
    error, or it has returned the array registered for [addr]. *)
Definition getting (addr : string) (reg : gmap string loc) (g : goroutine) : Prop :=
  match g with
  | G_getConnArray a | G_createConnArray a => a = addr
  | G_returned (Some (Ok l)) => reg !! addr = Some l
  | G_returned (Some (Err _)) => True
  | _ => False
  end.

Definition get_inv (addr : string) (gs : list goroutine) (st : State) : Prop :=
  isClosed (client st) = false
  ∧ (conns (client st) = ∅ ∨ ∃ l, conns (client st) = {[addr := l]})
  ∧ Forall (getting addr (conns (client st))) gs.

(** The same program when no dial of [addr] fails: either nothing has been
    built or dialed and nobody has returned, or the one array ever built is
    registered, its ten dials are all that was dialed, and whoever returned
    got that array. *)
Definition get_inv_ok (addr : string) (gs : list goroutine) (st : State) : Prop :=
  (conns (client st) = ∅
   ∧ heap st = []
   ∧ net st = []
   ∧ Forall (λ g, ∀ r, g ≠ G_returned r) gs)
  ∨ (conns (client st) = {[addr := 0%nat]}
     ∧ heap st = [mkConnArray 0 (Some <$> seq 0 10)]
     ∧ net st = replicate 10 (EvDial addr None)
     ∧ Forall (λ g, ∀ r, g = G_returned r → r = Some (Ok 0%nat)) gs).

(** ** Environments used in the examples *)

(** Every dial succeeds; every close succeeds. *)
Definition dial_always_ok : trace → string → option error := λ _ _, None.
Definition close_always_ok : trace → conn → option error := λ _ _, None.

(** The very first dial fails, every later one succeeds. *)
Definition dial_first_fails : trace → string → option error :=
  λ tr _, match tr with [] => Some (TransportError 1) | _ => None end.

(** The third dial fails. *)
Definition dial_third_fails : trace → string → option error :=
  λ tr _, if decide (length tr = 2%nat) then Some (TransportError 1) else None.

(** ** What a call of [createConnArray] leaves behind *)

(** The state after [createConnArray addr] has built and registered a new
    array: the ten connections just dialed sit in a new array at the end of
    the heap. *)
Definition built (addr : string) (st : State) : State :=
  mkState (mkRpcClient (isClosed (client st))
                       (<[addr := length (heap st)]> (conns (client st))))
          (heap st ++ [mkConnArray 0 (Some <$> seq (length (net st)) 10)])
          (net st ++ replicate 10 (EvDial addr None)).

(** The state after the dial for slot [i] has failed with [err]: an
    abandoned array at the end of the heap, the [i] connections opened for
    it closed again, the client untouched. *)
Definition abandoned (close_result : trace → conn → option error)
    (addr : string) (i : nat) (err : error) (st : State) : State :=
  mkState (client st)
          (heap st ++ [mkConnArray 0 (replicate 10 None)])
          (close_all close_result (seq (length (net st)) i)
             (net st ++ replicate i (EvDial addr None)
                     ++ [EvDial addr (Some err)])).

(** ** Invariants of the pool *)

(** Every registered pointer is the only one to its array, which has ten
    slots; while the pool is open these hold ten connections dialed one
    after the other, all of them open. *)
Definition pool_inv (st : State) : Prop :=
  ∀ addr l, conns (client st) !! addr = Some l →
    (∀ addr', conns (client st) !! addr' = Some l → addr' = addr)
    ∧ ∃ a, heap st !! l = Some a
        ∧ length (v a) = 10%nat
        ∧ (isClosed (client st) = false →
           ∃ b, v a = Some <$> seq b 10
                ∧ ∀ c, c ∈ seq b 10 → is_open (net st) c).

(** Every open connection sits in a slot of a registered array. *)
Definition no_leak (st : State) : Prop :=
  ∀ c, is_open (net st) c →
    ∃ addr l a, conns (client st) !! addr = Some l
                ∧ heap st !! l = Some a
                ∧ Some c ∈ v a.

(** The goroutine numbered [i] started as a call of [getConnArray a] and is
    now somewhere in that call or back from it. *)
Definition calls (gs0 gs : list goroutine) (reg : gmap string loc) : Prop :=
  ∀ i a, gs0 !! i = Some (G_getConnArray a) →
    ∃ g, gs !! i = Some g ∧ getting a reg g.

(** ** The pool used by one goroutine

    Complete calls of the two entry points, one after the other. *)
Inductive call : Type :=
  | Call_getConnArray (addr : string)
  | Call_closeConns.

Section Calls.

Variable dial_result : trace → string → option error.
Variable close_result : trace → conn → option error.
Variable range : map_range.

Definition do_call (c : call) (st : State) : State :=
  match c with
  | Call_getConnArray addr => snd (getConnArray dial_result close_result addr st)
  | Call_closeConns => closeConns close_result range st
  end.

Fixpoint do_calls (cs : list call) (st : State) : State :=
  match cs with
  | [] => st
  | c :: cs' => do_calls cs' (do_call c st)
  end.

End Calls.

(** Nothing is open out of reach, and nothing at all once the pool is
    closed. *)
Definition torn_down (st : State) : Prop :=
  no_leak st ∧ (isClosed (client st) = true → ∀ c, ¬ is_open (net st) c).

(** * Properties *)

(** ** The transport trace *)

Lemma dial_log_app tr1 tr2 : dial_log (tr1 ++ tr2) = dial_log tr1 ++ dial_log tr2.
Proof. unfold dial_log. apply omap_app. Qed.

Lemma close_log_app tr1 tr2 : close_log (tr1 ++ tr2) = close_log tr1 ++ close_log tr2.
Proof. unfold close_log. apply omap_app. Qed.

Lemma dial_log_dials addr n :
  dial_log (replicate n (EvDial addr None)) = replicate n addr.
Proof. induction n as [|n IH]; simpl; [done|]. by rewrite <- IH. Qed.

Lemma close_log_dials addr n : close_log (replicate n (EvDial addr None)) = [].
Proof. induction n as [|n IH]; simpl; done. Qed.

Lemma dialed_mono tr1 tr2 c : dialed tr1 c → dialed (tr1 ++ tr2) c.
Proof. intros [addr H]. exists addr. by apply lookup_app_l_Some. Qed.

Lemma close_called_mono tr1 tr2 c : close_called tr1 c → close_called (tr1 ++ tr2) c.
Proof. intros [r H]. exists r. rewrite drop_app. set_solver. Qed.

Lemma close_called_app_r tr evs c r :
  (c < length tr)%nat → EvClose c r ∈ evs → close_called (tr ++ evs) c.
Proof.
  intros Hlt Hin. exists r. rewrite drop_app.
  replace (S c - length tr)%nat with 0%nat by lia. rewrite drop_0. set_solver.
Qed.

Lemma elem_of_close_log c evs : c ∈ close_log evs → ∃ r, EvClose c r ∈ evs.
Proof.
  unfold close_log. rewrite list_elem_of_omap.
  intros ([addr r|c' r] & Hin & Heq); [done|].
  injection Heq as ->. by exists r.
Qed.

Lemma not_close_called_dials tr addr n c :
  ¬ close_called tr c → ¬ close_called (tr ++ replicate n (EvDial addr None)) c.
Proof.
  intros Hn [r H]. apply Hn. exists r.
  rewrite drop_app in H. apply elem_of_app in H as [H|H]; [done|].
  apply list_elem_of_lookup in H as [i H].
  rewrite lookup_drop in H. apply lookup_replicate in H as [? _]. done.
Qed.

Lemma not_close_called_ge tr c : (length tr ≤ c)%nat → ¬ close_called tr c.
Proof. intros Hle [r H]. rewrite drop_ge in H by lia. by apply elem_of_nil in H. Qed.

Lemma insert_at_length {A} (pre : list A) x y rest :
  <[length pre := y]> (pre ++ x :: rest) = pre ++ y :: rest.
Proof.
  rewrite insert_app_r_alt by lia. by rewrite Nat.sub_diag.
Qed.

Section CloseFacts.

Variable close_result : trace → conn → option error.

Lemma close_all_extends cs tr : ∃ evs, close_all close_result cs tr = tr ++ evs
  ∧ close_log evs = cs ∧ dial_log evs = [].
Proof.
  revert tr. induction cs as [|c cs IH]; intros tr; simpl.
  - exists []. by rewrite app_nil_r.
  - destruct (IH (tr ++ [EvClose c (close_result tr c)])) as (evs & -> & Hc & Hd).
    exists (EvClose c (close_result tr c) :: evs).
    rewrite <- app_assoc. simpl. by rewrite Hc, Hd.
Qed.

Lemma close_log_close_all cs tr :
  close_log (close_all close_result cs tr) = close_log tr ++ cs.
Proof.
  destruct (close_all_extends cs tr) as (evs & -> & Hc & _).
  by rewrite close_log_app, Hc.
Qed.

Lemma dial_log_close_all cs tr :
  dial_log (close_all close_result cs tr) = dial_log tr.
Proof.
  destruct (close_all_extends cs tr) as (evs & -> & _ & Hd).
  by rewrite dial_log_app, Hd, app_nil_r.
Qed.

Lemma close_all_prefix cs tr : tr `prefix_of` close_all close_result cs tr.
Proof. destruct (close_all_extends cs tr) as (evs & -> & _). by exists evs. Qed.

Lemma close_called_close_all cs tr c :
  c ∈ cs → (c < length tr)%nat → close_called (close_all close_result cs tr) c.
Proof.
  intros Hin Hlt.
  destruct (close_all_extends cs tr) as (evs & -> & Hc & _).
  rewrite <- Hc in Hin. apply elem_of_close_log in Hin as [r Hin].
  by eapply close_called_app_r.
Qed.

(** The loop of [Close] from slot [length pre] on: the slots before it are
    left alone, the others are closed when non-null and all end up null. *)
Lemma Close_loop_spec idx pre rest tr :
  Close_loop close_result (seq (length pre) (length rest))
             (mkConnArray idx (pre ++ rest)) tr
  = (mkConnArray idx (pre ++ replicate (length rest) None),
     close_all close_result (omap id rest) tr).
Proof.
  revert pre tr. induction rest as [|x rest IH]; intros pre tr.
  - done.
  - cbn [length seq Close_loop v index].
    rewrite list_lookup_middle by done.
    assert (Hnext : ∀ y, pre ++ y :: rest = (pre ++ [y]) ++ rest)
      by (intros y; by rewrite <- app_assoc).
    assert (Hlen : ∀ y : option conn, S (length pre) = length (pre ++ [y]))
      by (intros y; rewrite length_app; simpl; lia).
    destruct x as [c|].
    + cbn [ClientConn_Close omap close_all snd].
      rewrite insert_at_length.
      rewrite (Hnext None), (Hlen None), IH.
      by rewrite <- app_assoc.
    + rewrite (Hnext None), (Hlen None), IH.
      by rewrite <- app_assoc.
Qed.

Lemma Close_spec a tr :
  Close close_result a tr
  = (mkConnArray (index a) (replicate (length (v a)) None),
     close_all close_result (omap id (v a)) tr).
Proof.
  destruct a as [idx vs]. unfold Close. cbn [v index].
  apply (Close_loop_spec idx [] vs tr).
Qed.

Lemma omap_id_replicate_None n : omap id (replicate n (@None conn)) = [].
Proof. induction n; simpl; done. Qed.

End CloseFacts.

(** C8. [Close] calls [ClientConn.Close] on every non-null slot, in slot
    order and whatever errors these calls return, and leaves every slot null;
    a second [Close] then changes nothing: it closes nothing again. *)
Theorem Close_closes_all_and_is_idempotent
    (close_result : trace → conn → option error) (a : connArray) (tr : trace) :
  let '(a1, tr1) := Close close_result a tr in
  v a1 = replicate (length (v a)) None
  ∧ index a1 = index a
  ∧ close_log tr1 = close_log tr ++ omap id (v a)
  ∧ dial_log tr1 = dial_log tr
  ∧ tr `prefix_of` tr1
  ∧ Close close_result a1 tr1 = (a1, tr1).
Proof.
  rewrite Close_spec.
  repeat split.
  - apply close_log_close_all.
  - apply dial_log_close_all.
  - apply close_all_prefix.
  - rewrite Close_spec. cbn [v index].
    by rewrite length_replicate, omap_id_replicate_None.
Qed.

Section InitFacts.

Variable dial_result : trace → string → option error.
Variable close_result : trace → conn → option error.

Lemma dials_ok_next addr tr n :
  dials_ok dial_result addr tr (S n) →
  dial_result tr addr = None
  ∧ dials_ok dial_result addr (tr ++ [EvDial addr None]) n.
Proof.
  intros Hok. split.
  - specialize (Hok 0%nat). simpl in Hok. rewrite app_nil_r in Hok. apply Hok. lia.
  - intros j Hj. rewrite <- app_assoc. apply (Hok (S j)). lia.
Qed.

(** When no dial fails, the loop of [init] fills the remaining slots with
    the connections it dials, in order. *)
Lemma init_loop_ok addr idx pre rest tr :
  dials_ok dial_result addr tr (length rest) →
  init_loop dial_result close_result addr (seq (length pre) (length rest))
            (mkConnArray idx (pre ++ rest)) tr
  = (None,
     mkConnArray idx (pre ++ (Some <$> seq (length tr) (length rest))),
     tr ++ replicate (length rest) (EvDial addr None)).
Proof.
  revert pre tr. induction rest as [|x rest IH]; intros pre tr Hok.
  - simpl. by rewrite !app_nil_r.
  - apply dials_ok_next in Hok as [Hnow Hok].
    cbn [length seq init_loop]. unfold DialContext. rewrite Hnow.
    cbn [v index]. rewrite insert_at_length.
    rewrite (cons_middle _ pre rest), app_assoc.
    replace (S (length pre)) with (length (pre ++ [Some (length tr)]))
      by (rewrite length_app; simpl; lia).
    rewrite IH by done.
    rewrite length_app. simpl. rewrite Nat.add_1_r, <- !app_assoc. done.
Qed.

(** When the dial for the [i]-th remaining slot is the first to fail, the
    loop stops there and [Close] runs on the array as it is then. *)
Lemma init_loop_fail addr idx pre rest tr i err :
  (i < length rest)%nat →
  dials_ok dial_result addr tr i →
  dial_result (tr ++ replicate i (EvDial addr None)) addr = Some err →
  init_loop dial_result close_result addr (seq (length pre) (length rest))
            (mkConnArray idx (pre ++ rest)) tr
  = (Some err,
     mkConnArray idx (replicate (length pre + length rest) None),
     close_all close_result
       (omap id (pre ++ (Some <$> seq (length tr) i) ++ drop i rest))
       (tr ++ replicate i (EvDial addr None) ++ [EvDial addr (Some err)])).
Proof.
  revert pre rest tr. induction i as [|i IH]; intros pre rest tr Hlt Hok Hfail.
  - destruct rest as [|x rest]; [simpl in Hlt; lia|].
    simpl in Hfail. rewrite app_nil_r in Hfail.
    cbn [length seq init_loop]. unfold DialContext. rewrite Hfail.
    rewrite Close_spec. cbn [v index fmap list_fmap drop replicate app].
    by rewrite length_app.
  - destruct rest as [|x rest]; [simpl in Hlt; lia|].
    apply dials_ok_next in Hok as [Hnow Hok].
    cbn [length seq init_loop]. unfold DialContext. rewrite Hnow.
    cbn [v index]. rewrite insert_at_length.
    rewrite (cons_middle _ pre rest), app_assoc.
    replace (S (length pre)) with (length (pre ++ [Some (length tr)]))
      by (rewrite length_app; simpl; lia).
    rewrite (IH _ rest (tr ++ [EvDial addr None])).
    + rewrite !length_app. cbn [length drop seq fmap list_fmap].
      rewrite <- !app_assoc. cbn [app replicate].
      rewrite (Nat.add_1_r (length tr)).
      replace (length pre + 1 + length rest)%nat
        with (length pre + S (length rest))%nat by lia.
      done.
    + simpl in Hlt. lia.
    + done.
    + rewrite <- app_assoc. exact Hfail.
Qed.

End InitFacts.

Lemma omap_id_fmap_Some (cs : list conn) : omap id (Some <$> cs) = cs.
Proof. induction cs as [|c cs IH]; [done|]. cbn. f_equal. exact IH. Qed.

Lemma dialed_dials tr addr n c :
  c ∈ seq (length tr) n → dialed (tr ++ replicate n (EvDial addr None)) c.
Proof.
  rewrite elem_of_seq. intros [Hge Hlt]. exists addr.
  rewrite lookup_app_r by done. apply lookup_replicate_2. lia.
Qed.

Section NewConnArrayFacts.

Variable dial_result : trace → string → option error.
Variable close_result : trace → conn → option error.

Lemma newConnArray_ok maxSize addr h tr :
  dials_ok dial_result addr tr maxSize →
  newConnArray dial_result close_result maxSize addr h tr
  = (Ok (length h),
     h ++ [mkConnArray 0 (Some <$> seq (length tr) maxSize)],
     tr ++ replicate maxSize (EvDial addr None)).
Proof.
  intros Hok. unfold newConnArray, init. cbn [v index].
  pose proof (init_loop_ok dial_result close_result addr 0 []
                (replicate maxSize None) tr) as Hloop.
  rewrite length_replicate in Hloop. cbn [length app] in Hloop.
  by rewrite length_replicate, Hloop.
Qed.

Lemma newConnArray_fail maxSize addr h tr i err :
  (i < maxSize)%nat →
  dials_ok dial_result addr tr i →
  dial_result (tr ++ replicate i (EvDial addr None)) addr = Some err →
  newConnArray dial_result close_result maxSize addr h tr
  = (Err err,
     h ++ [mkConnArray 0 (replicate maxSize None)],
     close_all close_result (seq (length tr) i)
       (tr ++ replicate i (EvDial addr None) ++ [EvDial addr (Some err)])).
Proof.
  intros Hlt Hok Hfail.
  pose proof (init_loop_fail dial_result close_result addr 0 []
                (replicate maxSize None) tr i err) as Hloop.
  rewrite length_replicate in Hloop. cbn [length app] in Hloop.
  specialize (Hloop Hlt Hok Hfail).
  rewrite omap_app, omap_id_fmap_Some, drop_replicate,
    omap_id_replicate_None, app_nil_r in Hloop.
  unfold newConnArray, init. cbn [v index]. by rewrite length_replicate, Hloop.
Qed.

End NewConnArrayFacts.

(** C4. [newConnArray] is all-or-nothing.  When the [maxSize] dials succeed
    it returns a new array whose slots hold the [maxSize] connections just
    dialed, all open.  When the dial for slot [i] is the first to fail it
    dials no further, calls [Close] on the [i] connections it had opened,
    leaves every slot of the abandoned array null and returns the error of
    the dial instead of an array. *)
Theorem newConnArray_all_or_nothing
    (dial_result : trace → string → option error)
    (close_result : trace → conn → option error)
    (maxSize : nat) (addr : string) (h : list connArray) (tr : trace) :
  (dials_ok dial_result addr tr maxSize →
     newConnArray dial_result close_result maxSize addr h tr
     = (Ok (length h),
        h ++ [mkConnArray 0 (Some <$> seq (length tr) maxSize)],
        tr ++ replicate maxSize (EvDial addr None))
     ∧ ∀ c, c ∈ seq (length tr) maxSize →
            is_open (tr ++ replicate maxSize (EvDial addr None)) c)
  ∧ (∀ i err,
       (i < maxSize)%nat →
       dials_ok dial_result addr tr i →
       dial_result (tr ++ replicate i (EvDial addr None)) addr = Some err →
       ∃ tr1,
         newConnArray dial_result close_result maxSize addr h tr
         = (Err err, h ++ [mkConnArray 0 (replicate maxSize None)], tr1)
         ∧ dial_log tr1 = dial_log tr ++ replicate (S i) addr
         ∧ close_log tr1 = close_log tr ++ seq (length tr) i
         ∧ ∀ c, c ∈ seq (length tr) i → dialed tr1 c ∧ close_called tr1 c).
Proof.
  split.
  - intros Hok. split; [by apply newConnArray_ok|].
    intros c Hc. split; [by apply dialed_dials|].
    apply not_close_called_dials, not_close_called_ge.
    apply elem_of_seq in Hc. lia.
  - intros i err Hlt Hok Hfail.
    eexists. split; [by apply newConnArray_fail|]. split; [|split].
    + rewrite replicate_S_end, dial_log_close_all, !dial_log_app, dial_log_dials.
      done.
    + rewrite close_log_close_all, !close_log_app, close_log_dials. simpl.
      by rewrite app_nil_r.
    + intros c Hc.
      destruct (close_all_extends close_result (seq (length tr) i)
                  (tr ++ replicate i (EvDial addr None) ++ [EvDial addr (Some err)]))
        as (evs & Heq & Hcl & _).
      split.
      * rewrite Heq, app_assoc. do 2 apply dialed_mono. by apply dialed_dials.
      * apply close_called_close_all; [done|].
        apply elem_of_seq in Hc. rewrite !length_app, length_replicate. simpl. lia.
Qed.

(** ** Round-robin selection *)

Lemma uint32_range x : 0 ≤ uint32 x < uint32_max.
Proof. unfold uint32, uint32_max. apply Z.mod_pos_bound. lia. Qed.

Lemma uint32_small x : 0 ≤ x < uint32_max → uint32 x = x.
Proof. unfold uint32. apply Z.mod_small. Qed.

Lemma uint32_succ x i : uint32 (uint32 (x + 1) + i) = uint32 (x + (1 + i)).
Proof. unfold uint32. rewrite Zplus_mod_idemp_l. f_equal. lia. Qed.

(** [uint32(len(a.v))] is at most the length, whatever the length is. *)
Lemma uint32_length_le (n : nat) : uint32 (Z.of_nat n) ≤ Z.of_nat n.
Proof. unfold uint32, uint32_max. apply Z.mod_le; lia. Qed.

(** [Get] returns the slot it selects whenever the modulus is not zero. *)
Lemma Get_ok a :
  uint32 (Z.of_nat (length (v a))) ≠ 0 →
  ∃ slot,
    v a !! Z.to_nat (uint32 (index a + 1) mod uint32 (Z.of_nat (length (v a))))
      = Some slot
    ∧ Get a = (Ret slot, mkConnArray (uint32 (index a + 1)) (v a)).
Proof.
  intros Hn. unfold Get.
  set (n := uint32 (Z.of_nat (length (v a)))) in *.
  set (new := uint32 (index a + 1)).
  destruct (decide (n = 0)) as [|_]; [done|].
  assert (Hpos : 0 < n) by (pose proof (uint32_range (Z.of_nat (length (v a)))); lia).
  assert (Hlt : (Z.to_nat (new mod n) < length (v a))%nat).
  { pose proof (Z.mod_pos_bound new n Hpos).
    pose proof (uint32_length_le (length (v a))). lia. }
  apply lookup_lt_is_Some in Hlt as [slot Hslot].
  exists slot. by rewrite Hslot.
Qed.

Lemma Get_zero_modulus a :
  uint32 (Z.of_nat (length (v a))) = 0 →
  Get a = (Panic DivideByZero, mkConnArray (uint32 (index a + 1)) (v a)).
Proof. intros Hn. unfold Get. rewrite Hn. by destruct (decide (0 = 0)). Qed.

Lemma Gets_length n a : length (fst (Gets n a)) = n.
Proof.
  revert a. induction n as [|n IH]; intros a; [done|].
  cbn [Gets]. destruct (Get a) as [r a1]. specialize (IH a1).
  destruct (Gets n a1) as [rs a2]. simpl in *. by rewrite IH.
Qed.

(** The call numbered [i] (from 0) of a run of [n] calls reads the slot
    selected by the counter after [i + 1] increments. *)
Lemma Gets_lookup n a i :
  uint32 (Z.of_nat (length (v a))) ≠ 0 →
  (i < n)%nat →
  ∃ slot,
    v a !! Z.to_nat (uint32 (index a + (1 + Z.of_nat i))
                     mod uint32 (Z.of_nat (length (v a)))) = Some slot
    ∧ fst (Gets n a) !! i = Some (Ret slot).
Proof.
  revert a i. induction n as [|n IH]; intros a i Hn Hi; [lia|].
  cbn [Gets]. destruct (Get_ok a Hn) as (slot & Hslot & ->).
  set (a1 := mkConnArray (uint32 (index a + 1)) (v a)).
  destruct i as [|i].
  - exists slot. destruct (Gets n a1) as [rs a2]. split; [|done].
    by rewrite Z.add_0_r.
  - destruct (IH a1 i) as (slot' & Hslot' & Hget); [done|lia|].
    cbn [index v a1] in Hslot'. rewrite uint32_succ in Hslot'.
    exists slot'. destruct (Gets n a1) as [rs a2]. split; [|done].
    replace (1 + Z.of_nat (S i)) with (1 + (1 + Z.of_nat i)) by lia. exact Hslot'.
Qed.

Lemma Gets_zero_modulus n a :
  uint32 (Z.of_nat (length (v a))) = 0 →
  fst (Gets n a) = replicate n (Panic DivideByZero).
Proof.
  revert a. induction n as [|n IH]; intros a Hn; [done|].
  cbn [Gets]. rewrite Get_zero_modulus by done.
  specialize (IH (mkConnArray (uint32 (index a + 1)) (v a)) Hn).
  destruct (Gets n _) as [rs a2]. simpl in *. by rewrite IH.
Qed.

(** C3, as amended.  For an array of [k] slots, [1 <= k < 2^32], whose
    counter holds [c], the [i]-th following call of [Get] returns the slot
    numbered [((c + i) mod 2^32) mod k]; while the counter does not wrap
    around ([c + i < 2^32]) this is slot [(c + i) mod k], so [k] calls
    return every slot once, in slot order from [(c + 1) mod k]; and with
    three slots and the counter at 0, four calls return slots 1, 2, 0, 1. *)
Theorem Get_round_robin (a : connArray) :
  let k := Z.of_nat (length (v a)) in
  let c := index a in
  1 ≤ k < uint32_max →
  0 ≤ c < uint32_max →
  (∀ n i, (1 ≤ i ≤ n)%nat →
     ∃ slot,
       v a !! Z.to_nat (((c + Z.of_nat i) mod uint32_max) mod k) = Some slot
       ∧ fst (Gets n a) !! (i - 1)%nat = Some (Ret slot))
  ∧ (∀ n i, (1 ≤ i ≤ n)%nat → c + Z.of_nat i < uint32_max →
     ∃ slot,
       v a !! Z.to_nat ((c + Z.of_nat i) mod k) = Some slot
       ∧ fst (Gets n a) !! (i - 1)%nat = Some (Ret slot))
  ∧ (c + k < uint32_max →
     fst (Gets (length (v a)) a)
     = Ret <$> rotate (Z.to_nat ((c + 1) mod k)) (v a))
  ∧ (∀ x y z, c = 0 → v a = [x; y; z] →
     fst (Gets 4 a) = [Ret y; Ret z; Ret x; Ret y]).
Proof.
  intros k c Hk Hc.
  assert (Hu : uint32 k = k) by (apply uint32_small; lia).
  assert (Hn : uint32 (Z.of_nat (length (v a))) ≠ 0) by (fold k; lia).
  assert (Hgen : ∀ n i, (1 ≤ i ≤ n)%nat →
     ∃ slot,
       v a !! Z.to_nat (((c + Z.of_nat i) mod uint32_max) mod k) = Some slot
       ∧ fst (Gets n a) !! (i - 1)%nat = Some (Ret slot)).
  { intros n i Hi.
    destruct (Gets_lookup n a (i - 1) Hn) as (slot & Hslot & Hget); [lia|].
    exists slot. split; [|done].
    fold k c in Hslot. rewrite Hu in Hslot. unfold uint32 in Hslot.
    replace (c + (1 + Z.of_nat (i - 1))) with (c + Z.of_nat i) in Hslot by lia.
    done. }
  split; [exact Hgen|]. split; [|split].
  - intros n i Hi Hno.
    destruct (Hgen n i Hi) as (slot & Hslot & Hget).
    exists slot. split; [|done].
    rewrite (Z.mod_small (c + Z.of_nat i) uint32_max) in Hslot by lia. done.
  - intros Hno. apply list_eq. intros i.
    destruct (decide (i < length (v a))%nat) as [Hi|Hi].
    + destruct (Hgen (length (v a)) (S i)) as (slot & Hslot & Hget); [lia|].
      replace (S i - 1)%nat with i in Hget by lia. rewrite Hget.
      rewrite list_lookup_fmap, lookup_rotate_r by done.
      unfold rotate_nat_add. fold k.
      rewrite Z2Nat.id by (apply Z.mod_pos_bound; lia).
      rewrite Zplus_mod_idemp_l.
      rewrite (Z.mod_small (c + Z.of_nat (S i)) uint32_max) in Hslot by lia.
      replace (c + 1 + Z.of_nat i) with (c + Z.of_nat (S i)) by lia.
      by rewrite Hslot.
    + rewrite !lookup_ge_None_2; [done| |].
      * rewrite length_fmap, length_rotate. lia.
      * rewrite Gets_length. lia.
  - intros x y z Hc0 Hv. destruct a as [idx vs]. subst c. simpl in Hc0, Hv.
    subst idx vs. vm_compute. reflexivity.
Qed.

(** C9. [newConnArray(0, addr)] dials nothing and returns an array without
    slots; on such an array every call of [Get] panics on the division by
    zero, and a call of [Get] that returns has found at least one slot. *)
Theorem newConnArray_zero_Get_panics
    (dial_result : trace → string → option error)
    (close_result : trace → conn → option error)
    (addr : string) (h : list connArray) (tr : trace) :
  newConnArray dial_result close_result 0 addr h tr
  = (Ok (length h), h ++ [mkConnArray 0 []], tr)
  ∧ (∀ a n, v a = [] → fst (Gets n a) = replicate n (Panic DivideByZero))
  ∧ (∀ a slot a1, Get a = (Ret slot, a1) → (1 ≤ length (v a))%nat).
Proof.
  split; [done|]. split.
  - intros a n Hv. apply Gets_zero_modulus. by rewrite Hv.
  - intros a slot a1 Hget.
    destruct (v a) as [|x vs] eqn:Hv; [|simpl; lia].
    rewrite Get_zero_modulus in Hget by (by rewrite Hv). done.
Qed.

(** C10, as amended.  After [Close], on an array whose number of slots is
    not a multiple of 2^32 (so for every size from 1 to 2^32 - 1), [Get]
    neither panics nor reports anything: each call returns the null
    connection and only advances the counter. *)
Theorem Get_after_Close
    (close_result : trace → conn → option error) (a : connArray) (tr : trace) :
  uint32 (Z.of_nat (length (v a))) ≠ 0 →
  let '(a1, tr1) := Close close_result a tr in
  Get a1 = (Ret None,
            mkConnArray (uint32 (index a + 1)) (replicate (length (v a)) None))
  ∧ ∀ n, fst (Gets n a1) = replicate n (Ret None).
Proof.
  intros Hn. rewrite Close_spec.
  set (a1 := mkConnArray (index a) (replicate (length (v a)) None)).
  assert (Hn1 : uint32 (Z.of_nat (length (v a1))) ≠ 0)
    by (cbn [v a1]; by rewrite length_replicate).
  split.
  - destruct (Get_ok a1 Hn1) as (slot & Hslot & ->).
    cbn [v a1] in Hslot. apply lookup_replicate in Hslot as [-> _]. done.
  - intros n. apply list_eq. intros i.
    destruct (decide (i < n)%nat) as [Hi|Hi].
    + destruct (Gets_lookup n a1 i Hn1 Hi) as (slot & Hslot & ->).
      cbn [v a1] in Hslot. apply lookup_replicate in Hslot as [-> _].
      by rewrite lookup_replicate_2.
    + rewrite !lookup_ge_None_2; [done| |].
      * rewrite length_replicate. lia.
      * rewrite Gets_length. lia.
Qed.

(** ** The pool, one goroutine at a time *)

Section PoolFacts.

Variable dial_result : trace → string → option error.
Variable close_result : trace → conn → option error.
Variable range : map_range.

Lemma init_loop_extends addr ix a tr :
  ∃ evs, snd (init_loop dial_result close_result addr ix a tr) = tr ++ evs.
Proof.
  revert a tr. induction ix as [|i ix IH]; intros a tr.
  - exists []. simpl. by rewrite app_nil_r.
  - cbn [init_loop]. unfold DialContext.
    destruct (dial_result tr addr) as [err|].
    + rewrite Close_spec. cbn [snd].
      destruct (close_all_extends close_result (omap id (v a))
                  (tr ++ [EvDial addr (Some err)])) as (evs & -> & _).
      exists (EvDial addr (Some err) :: evs). by rewrite <- app_assoc.
    + destruct (IH (mkConnArray (index a) (<[i := Some (length tr)]> (v a)))
                  (tr ++ [EvDial addr None])) as (evs & ->).
      exists (EvDial addr None :: evs). by rewrite <- app_assoc.
Qed.

(** A construction with at least one slot starts by dialing. *)
Lemma newConnArray_dials maxSize addr h tr :
  (1 ≤ maxSize)%nat →
  ∃ r a1 more,
    newConnArray dial_result close_result maxSize addr h tr
    = (r, h ++ [a1], tr ++ EvDial addr (dial_result tr addr) :: more).
Proof.
  intros Hsize. unfold newConnArray, init. cbn [v].
  rewrite length_replicate.
  destruct maxSize as [|n]; [lia|]. cbn [seq init_loop]. unfold DialContext.
  destruct (dial_result tr addr) as [err|].
  - rewrite Close_spec.
    destruct (close_all_extends close_result
                (omap id (v (mkConnArray 0 (replicate (S n) None))))
                (tr ++ [EvDial addr (Some err)])) as (evs & -> & _).
    eexists _, _, evs. by rewrite <- app_assoc.
  - match goal with |- context [init_loop _ _ _ ?ix ?a ?t] =>
      destruct (init_loop_extends addr ix a t) as (evs & Hevs);
      destruct (init_loop dial_result close_result addr ix a t) as [[e a1] tr1]
    end.
    simpl in Hevs. subst tr1. rewrite <- app_assoc.
    destruct e; eexists _, _, evs; reflexivity.
Qed.

Lemma createConnArray_isClosed addr st :
  isClosed (client (snd (createConnArray dial_result close_result addr st)))
  = isClosed (client st).
Proof.
  unfold createConnArray.
  destruct (conns (client st) !! addr); [done|].
  destruct (newConnArray _ _ _ _ _ _) as [[[l|err] h1] tr1]; done.
Qed.

Lemma closeConns_isClosed st :
  isClosed (client (closeConns close_result range st)) = true.
Proof.
  unfold closeConns. destruct (isClosed (client st)) eqn:Hc; [done|].
  by destruct (Close_each _ _ _ _).
Qed.

(** [closeConns] on a closed pool does nothing at all. *)
Lemma closeConns_closed st :
  isClosed (client st) = true → closeConns close_result range st = st.
Proof. intros Hc. unfold closeConns. by rewrite Hc. Qed.

(** No step of any goroutine resets the flag. *)
Lemma step_isClosed g st :
  isClosed (client st) = true →
  isClosed (client (snd (step dial_result close_result range g st))) = true.
Proof.
  intros Hc. destruct g as [addr|addr| |r]; cbn [step].
  - by rewrite Hc.
  - pose proof (createConnArray_isClosed addr st) as H.
    destruct (createConnArray _ _ _ _) as [r st1]. simpl in *. congruence.
  - apply closeConns_isClosed.
  - done.
Qed.

Lemma run_isClosed sched gs st :
  isClosed (client st) = true →
  isClosed (client (snd (run dial_result close_result range sched gs st))) = true.
Proof.
  revert gs st. induction sched as [|i sched IH]; intros gs st Hc; [done|].
  cbn [run]. unfold step_at.
  destruct (gs !! i) as [g|]; [|by apply IH].
  pose proof (step_isClosed g st Hc) as Hstep.
  destruct (step _ _ _ g st) as [g1 st1]. by apply IH.
Qed.

(** [Close] through a pointer nulls the array it points to and leaves the
    others alone. *)
Lemma Close_at_heap l0 h tr l :
  (Close_at close_result l0 h tr).1 !! l
  = if decide (l = l0) then nulled <$> h !! l else h !! l.
Proof.
  unfold Close_at. destruct (h !! l0) as [a|] eqn:Ha.
  - rewrite Close_spec. cbn [fst]. fold (nulled a).
    destruct (decide (l = l0)) as [->|Hne].
    + rewrite Ha. apply list_lookup_insert_eq. by eapply lookup_lt_Some.
    + by rewrite list_lookup_insert_ne.
  - cbn [fst]. destruct (decide (l = l0)) as [->|Hne]; [by rewrite Ha|done].
Qed.

Lemma nulled_nulled a : nulled (nulled a) = nulled a.
Proof. unfold nulled. cbn [v index]. by rewrite length_replicate. Qed.

Lemma Close_each_heap ls h tr l :
  (Close_each close_result ls h tr).1 !! l
  = if decide (l ∈ ls) then nulled <$> h !! l else h !! l.
Proof.
  revert h tr. induction ls as [|l0 ls IH]; intros h tr.
  - cbn [Close_each fst]. destruct (decide (l ∈ [])) as [Hin|_]; [|done].
    by apply elem_of_nil in Hin.
  - cbn [Close_each]. pose proof (Close_at_heap l0 h tr l) as Hat.
    destruct (Close_at close_result l0 h tr) as [h1 tr1]. cbn [fst] in Hat.
    rewrite IH, Hat.
    destruct (decide (l = l0)) as [->|Hne].
    + rewrite (decide_True (P := l0 ∈ l0 :: ls)) by (apply elem_of_cons; by left).
      destruct (decide (l0 ∈ ls)); [|done].
      destruct (h !! l0) as [a|]; [|done]. simpl. by rewrite nulled_nulled.
    + destruct (decide (l ∈ ls)) as [Hin|Hnin].
      * by rewrite (decide_True (P := l ∈ l0 :: ls))
          by (apply elem_of_cons; by right).
      * by rewrite (decide_False (P := l ∈ l0 :: ls))
          by (rewrite elem_of_cons; intros [?|?]; done).
Qed.

(** On an open pool [closeConns] closes every registered array, in whatever
    order the map is visited. *)
Lemma closeConns_closes_registered st addr l a :
  isClosed (client st) = false →
  conns (client st) !! addr = Some l →
  heap st !! l = Some a →
  heap (closeConns close_result range st) !! l = Some (nulled a).
Proof.
  intros Hopen Hreg Ha. unfold closeConns. rewrite Hopen.
  pose proof (Close_each_heap (snd <$> range (conns (client st)))
                (heap st) (net st) l) as Heach.
  destruct (Close_each _ _ _ _) as [h1 tr1]. cbn [fst heap] in *.
  rewrite Heach, decide_True, Ha; [done|].
  apply list_elem_of_fmap. exists (addr, l). split; [done|].
  rewrite (range_perm range). by apply elem_of_map_to_list.
Qed.

(** A call of [getConnArray] is the two steps of its goroutine, taken
    without anything running in between. *)
Lemma getConnArray_steps addr st :
  let '(g1, st1) := step dial_result close_result range (G_getConnArray addr) st in
  let '(g2, st2) := step dial_result close_result range g1 st1 in
  g2 = G_returned (Some (fst (getConnArray dial_result close_result addr st)))
  ∧ st2 = snd (getConnArray dial_result close_result addr st).
Proof.
  cbn [step]. unfold getConnArray.
  destruct (isClosed (client st)); [done|].
  destruct (conns (client st) !! addr) as [l|] eqn:Hl; [done|].
  cbn [step]. destruct (createConnArray _ _ _ _) as [[array|err] st1]; done.
Qed.

End PoolFacts.

(** C2, as amended.  When the address is already registered,
    [createConnArray] returns the registered array and changes nothing: no
    array is built, nothing is dialed, the registry is the same.  So does
    [getConnArray], provided the pool has not been closed. *)
Theorem createConnArray_existing
    (dial_result : trace → string → option error)
    (close_result : trace → conn → option error)
    (addr : string) (st : State) (array : loc) :
  conns (client st) !! addr = Some array →
  createConnArray dial_result close_result addr st = (Ok array, st)
  ∧ (isClosed (client st) = false →
     getConnArray dial_result close_result addr st = (Ok array, st)).
Proof.
  intros Hreg. split.
  - unfold createConnArray. by rewrite Hreg.
  - intros Hopen. unfold getConnArray. by rewrite Hopen, Hreg.
Qed.

(** C5. Once [closeConns] has returned, whatever the goroutines of the
    program do next, a call of [getConnArray] fails with the error
    "rpc client is closed" for every address and leaves the pool as it is. *)
Theorem getConnArray_after_closeConns
    (dial_result : trace → string → option error)
    (close_result : trace → conn → option error)
    (range : map_range)
    (st : State) (sched : list nat) (gs : list goroutine) (addr : string) :
  let st1 := closeConns close_result range st in
  let st2 := snd (run dial_result close_result range sched gs st1) in
  getConnArray dial_result close_result addr st1
    = (Err (errors_New "rpc client is closed"), st1)
  ∧ getConnArray dial_result close_result addr st2
    = (Err (errors_New "rpc client is closed"), st2).
Proof.
  intros st1 st2.
  assert (H1 : isClosed (client st1) = true) by apply closeConns_isClosed.
  assert (H2 : isClosed (client st2) = true) by (by apply run_isClosed).
  unfold getConnArray. by rewrite H1, H2.
Qed.

(** C7. When the construction fails inside [createConnArray], the error of
    the failed dial is returned and the client, its registry included, is
    what it was.  A later call for the same address starts over: it
    allocates a new array and dials again from the first slot, and registers
    and returns that array when its ten dials succeed. *)
Theorem createConnArray_failure_registers_nothing
    (dial_result : trace → string → option error)
    (close_result : trace → conn → option error)
    (addr : string) (st : State) (i : nat) (err : error) :
  conns (client st) !! addr = None →
  (i < 10)%nat →
  dials_ok dial_result addr (net st) i →
  dial_result (net st ++ replicate i (EvDial addr None)) addr = Some err →
  ∃ st1,
    createConnArray dial_result close_result addr st = (Err err, st1)
    ∧ client st1 = client st
    ∧ conns (client st1) !! addr = None
    ∧ (∃ r2 st2 more,
         createConnArray dial_result close_result addr st1 = (r2, st2)
         ∧ length (heap st2) = S (length (heap st1))
         ∧ dial_log (net st2) = dial_log (net st1) ++ addr :: more)
    ∧ (dials_ok dial_result addr (net st1) 10 →
       createConnArray dial_result close_result addr st1
       = (Ok (length (heap st1)),
          mkState (mkRpcClient (isClosed (client st))
                               (<[addr := length (heap st1)]> (conns (client st))))
                  (heap st1 ++ [mkConnArray 0 (Some <$> seq (length (net st1)) 10)])
                  (net st1 ++ replicate 10 (EvDial addr None)))).
Proof.
  intros Hnone Hi Hok Hfail.
  pose proof (newConnArray_fail dial_result close_result 10 addr
                (heap st) (net st) i err Hi Hok Hfail) as Hnew.
  set (tr1 := close_all _ _ _) in Hnew.
  eexists. split; [|split; [|split; [|split]]].
  - unfold createConnArray. rewrite Hnone, Hnew. reflexivity.
  - done.
  - done.
  - unfold createConnArray. cbn [client heap net]. rewrite Hnone.
    destruct (newConnArray_dials dial_result close_result 10 addr
                (heap st ++ [mkConnArray 0 (replicate 10 None)]) tr1)
      as (r & a1 & more & ->); [lia|].
    destruct r as [l|e]; eexists _, _, _; (split; [reflexivity|]);
      cbn [heap net]; rewrite length_app, dial_log_app; simpl;
      (split; [lia|reflexivity]).
  - intros Hok2. cbn [net heap] in *.
    pose proof (newConnArray_ok dial_result close_result 10 addr
                  (heap st ++ [mkConnArray 0 (replicate 10 None)]) tr1 Hok2)
      as Hnew2.
    unfold createConnArray. cbn [client heap net]. rewrite Hnone, Hnew2. done.
Qed.

(** ** Goroutines racing on one address *)

Lemma turns_cons_eq i sched : turns i (i :: sched) = S (turns i sched).
Proof. unfold turns. by rewrite filter_cons_True. Qed.

Lemma turns_cons_ne i j sched : j ≠ i → turns i (j :: sched) = turns i sched.
Proof. intros Hne. unfold turns. by rewrite filter_cons_False. Qed.

Section Race.

Variable dial_result : trace → string → option error.
Variable close_result : trace → conn → option error.
Variable range : map_range.

Lemma step_at_length i gs st :
  length (fst (step_at dial_result close_result range i gs st)) = length gs.
Proof.
  unfold step_at. destruct (gs !! i) as [g|]; [|done].
  destruct (step _ _ _ g st) as [g1 st1]. cbn [fst]. apply length_insert.
Qed.

Lemma run_length sched gs st :
  length (fst (run dial_result close_result range sched gs st)) = length gs.
Proof.
  revert gs st. induction sched as [|i sched IH]; intros gs st; [done|].
  cbn [run]. pose proof (step_at_length i gs st) as Hlen.
  destruct (step_at _ _ _ i gs st) as [gs1 st1]. rewrite IH. exact Hlen.
Qed.

(** Every step of a goroutine that has not returned brings it closer to
    its return: nothing in the pool blocks or loops. *)
Lemma step_steps_left g st :
  (steps_left (fst (step dial_result close_result range g st))
   ≤ steps_left g - 1)%nat.
Proof.
  destruct g as [addr|addr| |r]; cbn [step].
  - destruct (isClosed (client st)); [simpl; lia|].
    destruct (conns (client st) !! addr); simpl; lia.
  - destruct (createConnArray _ _ _ _) as [r st1]. simpl. lia.
  - simpl. lia.
  - simpl. lia.
Qed.

(** A goroutine that is given as many turns as it has steps left returns. *)
Lemma run_returns sched gs st i g :
  gs !! i = Some g →
  (steps_left g ≤ turns i sched)%nat →
  ∃ r, fst (run dial_result close_result range sched gs st) !! i
       = Some (G_returned r).
Proof.
  revert gs st g. induction sched as [|j sched IH]; intros gs st g Hg Hturns.
  - destruct g as [a|a| |r]; cbn in Hturns; try lia. by exists r.
  - cbn [run]. unfold step_at.
    destruct (decide (j = i)) as [->|Hne].
    + rewrite Hg. pose proof (step_steps_left g st) as Hdec.
      destruct (step _ _ _ g st) as [g1 st1]. cbn [fst] in Hdec.
      rewrite turns_cons_eq in Hturns.
      apply (IH _ st1 g1); [|lia].
      apply list_lookup_insert_eq. by eapply lookup_lt_Some.
    + rewrite turns_cons_ne in Hturns by done.
      destruct (gs !! j) as [gj|]; [|by apply (IH _ st g)].
      destruct (step _ _ _ gj st) as [g1 st1].
      apply (IH _ st1 g); [|done].
      by rewrite list_lookup_insert_ne.
Qed.

Variable addr : string.

Lemma getting_registered reg l g :
  reg !! addr = None → getting addr reg g → getting addr (<[addr := l]> reg) g.
Proof.
  intros Hnone. destruct g as [a|a| |[[l'|e]|]]; simpl; try done.
  intros Hl. congruence.
Qed.

Lemma get_inv_step i gs st :
  get_inv addr gs st →
  get_inv addr (fst (step_at dial_result close_result range i gs st))
               (snd (step_at dial_result close_result range i gs st)).
Proof.
  intros (Hopen & Hreg & Hall). unfold step_at.
  destruct (gs !! i) as [g|] eqn:Hg; [|done].
  pose proof (Forall_lookup_1 _ _ _ _ Hall Hg) as Hgi.
  destruct g as [a|a| |r]; cbn [step].
  - simpl in Hgi. subst a. rewrite Hopen.
    destruct (conns (client st) !! addr) as [l|] eqn:Hl; cbn [fst snd];
      (split; [done|split; [done|]]); by apply Forall_insert.
  - simpl in Hgi. subst a. unfold createConnArray.
    destruct (conns (client st) !! addr) as [l|] eqn:Hl.
    { cbn [fst snd]. split; [done|split; [done|]]. by apply Forall_insert. }
    destruct (newConnArray _ _ _ _ _ _) as [[[l|err] h1] tr1];
      cbn [fst snd client conns isClosed].
    + split; [done|]. split.
      * right. exists l. destruct Hreg as [->|[l' Hl']]; [apply insert_empty|].
        rewrite Hl', lookup_singleton_eq in Hl. done.
      * apply Forall_insert; [|simpl; apply lookup_insert_eq].
        eapply Forall_impl; [exact Hall|]. intros g. by apply getting_registered.
    + split; [done|split; [done|]]. by apply Forall_insert.
  - done.
  - cbn [fst snd]. split; [done|split; [done|]]. by rewrite list_insert_id.
Qed.

Lemma get_inv_run sched gs st :
  get_inv addr gs st →
  get_inv addr (fst (run dial_result close_result range sched gs st))
               (snd (run dial_result close_result range sched gs st)).
Proof.
  revert gs st. induction sched as [|i sched IH]; intros gs st Hinv; [done|].
  cbn [run]. pose proof (get_inv_step i gs st Hinv) as Hstep.
  destruct (step_at _ _ _ i gs st) as [gs1 st1]. by apply IH.
Qed.

Lemma get_inv_fresh n : get_inv addr (replicate n (G_getConnArray addr)) fresh.
Proof.
  split; [done|]. split; [by left|]. by apply Forall_replicate.
Qed.

Hypothesis dial_ok : ∀ tr, dial_result tr addr = None.

Lemma get_inv_ok_step i gs st :
  get_inv addr gs st →
  get_inv_ok addr gs st →
  get_inv_ok addr (fst (step_at dial_result close_result range i gs st))
                  (snd (step_at dial_result close_result range i gs st)).
Proof.
  intros (Hopen & _ & Hall) Hok. unfold step_at.
  destruct (gs !! i) as [g|] eqn:Hg; [|done].
  pose proof (Forall_lookup_1 _ _ _ _ Hall Hg) as Hgi.
  destruct g as [a|a| |r]; cbn [step].
  - simpl in Hgi. subst a. rewrite Hopen.
    destruct Hok as [(Hreg & Hheap & Hnet & Hgs)|(Hreg & Hheap & Hnet & Hgs)].
    + rewrite Hreg, lookup_empty. cbn [fst snd]. left.
      repeat (split; [done|]). by apply Forall_insert.
    + rewrite Hreg, lookup_singleton_eq. cbn [fst snd]. right.
      repeat (split; [done|]). apply Forall_insert; [done|]. congruence.
  - simpl in Hgi. subst a. unfold createConnArray.
    destruct Hok as [(Hreg & Hheap & Hnet & Hgs)|(Hreg & Hheap & Hnet & Hgs)].
    + rewrite Hreg, lookup_empty.
      rewrite newConnArray_ok by (intros j _; apply dial_ok).
      rewrite Hheap, Hnet.
      right. cbn [fst snd client conns isClosed net heap length app].
      split; [apply insert_empty|]. do 2 (split; [done|]).
      apply Forall_insert; [|congruence].
      eapply Forall_impl; [exact Hgs|]. intros g Hg' r ->. by destruct (Hg' r).
    + rewrite Hreg, lookup_singleton_eq. cbn [fst snd]. right.
      repeat (split; [done|]). apply Forall_insert; [done|]. congruence.
  - done.
  - cbn [fst snd]. by rewrite list_insert_id.
Qed.

Lemma get_inv_ok_run sched gs st :
  get_inv addr gs st →
  get_inv_ok addr gs st →
  get_inv_ok addr (fst (run dial_result close_result range sched gs st))
                  (snd (run dial_result close_result range sched gs st)).
Proof.
  revert gs st. induction sched as [|i sched IH]; intros gs st Hinv Hok; [done|].
  cbn [run]. pose proof (get_inv_step i gs st Hinv) as Hstep.
  pose proof (get_inv_ok_step i gs st Hinv Hok) as Hstep_ok.
  destruct (step_at _ _ _ i gs st) as [gs1 st1]. by apply IH.
Qed.

Lemma get_inv_ok_fresh n :
  get_inv_ok addr (replicate n (G_getConnArray addr)) fresh.
Proof. left. repeat (split; [done|]). by apply Forall_replicate. Qed.

End Race.

(** C1, as amended.  [n] goroutines call [getConnArray addr] on a fresh
    client, interleaved in any way.  At every moment at most one array is
    registered, and every call that has returned an array has returned the
    registered one, so all successful calls return the same instance.  When
    no dial of [addr] fails, at most one array is ever built; and once every
    goroutine has had its two turns, exactly one array has been built with
    exactly ten dials and all [n] calls have returned it. *)
Theorem getConnArray_concurrent
    (dial_result : trace → string → option error)
    (close_result : trace → conn → option error)
    (range : map_range) (addr : string) (n : nat) (sched : list nat) :
  let gs := fst (run dial_result close_result range sched
                     (replicate n (G_getConnArray addr)) fresh) in
  let st := snd (run dial_result close_result range sched
                     (replicate n (G_getConnArray addr)) fresh) in
  (conns (client st) = ∅ ∨ ∃ l, conns (client st) = {[addr := l]})
  ∧ (∀ i l, gs !! i = Some (G_returned (Some (Ok l))) →
            conns (client st) !! addr = Some l)
  ∧ ((∀ tr, dial_result tr addr = None) →
     ((heap st = [] ∧ net st = [])
      ∨ (heap st = [mkConnArray 0 (Some <$> seq 0 10)]
         ∧ net st = replicate 10 (EvDial addr None)))
     ∧ ((1 ≤ n)%nat →
        (∀ i, (i < n)%nat → (2 ≤ turns i sched)%nat) →
        gs = replicate n (G_returned (Some (Ok 0%nat)))
        ∧ conns (client st) = {[addr := 0%nat]}
        ∧ heap st = [mkConnArray 0 (Some <$> seq 0 10)]
        ∧ net st = replicate 10 (EvDial addr None))).
Proof.
  intros gs st.
  pose proof (get_inv_run dial_result close_result range addr sched _ _
                (get_inv_fresh addr n)) as (Hopen & Hreg & Hall).
  fold gs st in Hopen, Hreg, Hall.
  split; [exact Hreg|]. split.
  - intros i l Hi. exact (Forall_lookup_1 _ _ _ _ Hall Hi).
  - intros Hdial.
    pose proof (get_inv_ok_run dial_result close_result range addr Hdial sched _ _
                  (get_inv_fresh addr n) (get_inv_ok_fresh addr n)) as Hok.
    fold gs st in Hok.
    assert (Hlen : length gs = n).
    { unfold gs. by rewrite run_length, length_replicate. }
    split.
    + destruct Hok as [(_ & Hheap & Hnet & _)|(_ & Hheap & Hnet & _)]; auto.
    + intros Hn Hturns.
      assert (Hret : ∀ i, (i < n)%nat → ∃ r, gs !! i = Some (G_returned r)).
      { intros i Hi. unfold gs.
        apply (run_returns _ _ _ _ _ _ _ (G_getConnArray addr)).
        - by apply lookup_replicate_2.
        - simpl. by apply Hturns. }
      destruct Hok as [(_ & _ & _ & Hgs)|(Hreg' & Hheap & Hnet & Hgs)].
      * destruct (Hret 0%nat Hn) as [r Hr].
        destruct (Forall_lookup_1 _ _ _ _ Hgs Hr r). done.
      * split; [|done]. symmetry. apply replicate_as_Forall. split; [done|].
        apply Forall_lookup_2. intros i g Hg.
        destruct (Hret i) as [r Hr]; [apply lookup_lt_Some in Hg; lia|].
        rewrite Hr in Hg. injection Hg as <-.
        by rewrite (Forall_lookup_1 _ _ _ _ Hgs Hr r).
Qed.

(** ** The statements at concrete inputs *)

(** Against C1 as first stated: two goroutines, the first dial fails.  The first caller gets the
    dial error, the second dials again and gets an array: the callers neither
    all share one array nor all fail, and two constructions were attempted
    (eleven dials, two arrays allocated). *)
Lemma getConnArray_concurrent_retry :
  let '(gs, st) :=
    run dial_first_fails close_always_ok canonical_range [0; 0; 1; 1]%nat
        [G_getConnArray "A"; G_getConnArray "A"] fresh in
  gs = [G_returned (Some (Err (TransportError 1)));
        G_returned (Some (Ok 1%nat))]
  ∧ dial_log (net st) = replicate 11 "A"
  ∧ length (heap st) = 2%nat.
Proof. vm_compute. repeat split; reflexivity. Qed.

(** Two goroutines, each given its two turns in alternation. *)
Lemma getConnArray_concurrent_witness :
  (∀ tr, dial_always_ok tr "A" = None)
  ∧ (∀ i, (i < 2)%nat → (2 ≤ turns i [0; 1; 0; 1]%nat)%nat)
  ∧ fst (run dial_always_ok close_always_ok canonical_range [0; 1; 0; 1]%nat
             (replicate 2 (G_getConnArray "A")) fresh)
    = replicate 2 (G_returned (Some (Ok 0%nat))).
Proof.
  assert (Hdial : ∀ tr, dial_always_ok tr "A" = None) by reflexivity.
  assert (Hturns : ∀ i, (i < 2)%nat → (2 ≤ turns i [0; 1; 0; 1]%nat)%nat).
  { intros [|[|i]] Hi; [vm_compute; lia..|lia]. }
  split; [exact Hdial|]. split; [exact Hturns|].
  destruct (getConnArray_concurrent dial_always_ok close_always_ok canonical_range
              "A" 2 [0; 1; 0; 1]%nat) as (_ & _ & H).
  destruct (H Hdial) as [_ Hall].
  destruct Hall as [Hgs _]; [lia|exact Hturns|exact Hgs].
Defined.

(** Against C2 as first stated: after [closeConns] the address is still
    registered, and [getConnArray] refuses it. *)
Lemma getConnArray_registered_but_closed :
  let st := closeConns close_always_ok canonical_range
              (snd (getConnArray dial_always_ok close_always_ok "A" fresh)) in
  conns (client st) !! "A" = Some 0%nat
  ∧ getConnArray dial_always_ok close_always_ok "A" st
    = (Err (errors_New "rpc client is closed"), st).
Proof. vm_compute. split; reflexivity. Qed.

(** The pool after one successful call: the address is registered. *)
Lemma createConnArray_existing_witness :
  let st := snd (getConnArray dial_always_ok close_always_ok "A" fresh) in
  conns (client st) !! "A" = Some 0%nat
  ∧ isClosed (client st) = false
  ∧ createConnArray dial_always_ok close_always_ok "A" st = (Ok 0%nat, st)
  ∧ getConnArray dial_always_ok close_always_ok "A" st = (Ok 0%nat, st).
Proof.
  intros st.
  assert (Hreg : conns (client st) !! "A" = Some 0%nat) by (vm_compute; reflexivity).
  assert (Hopen : isClosed (client st) = false) by (vm_compute; reflexivity).
  split; [exact Hreg|]. split; [exact Hopen|].
  destruct (createConnArray_existing dial_always_ok close_always_ok "A" st 0%nat Hreg)
    as [Hcreate Hget].
  split; [exact Hcreate|exact (Hget Hopen)].
Defined.

(** Against C3 as first stated: three slots and the counter two steps
    before its wrap-around.  The
    second call returns slot 0 again, not slot [(c + 2) mod 3 = 1], and the
    three calls do not return each connection once. *)
Lemma Get_round_robin_wraps :
  let a := mkConnArray (2 ^ 32 - 2) [Some 0%nat; Some 1%nat; Some 2%nat] in
  fst (Gets 3 a) = [Ret (Some 0%nat); Ret (Some 0%nat); Ret (Some 1%nat)]
  ∧ v a !! Z.to_nat ((index a + 2) mod 3) = Some (Some 1%nat)
  ∧ fst (Gets 3 a) !! 1%nat ≠ Ret <$> (v a !! Z.to_nat ((index a + 2) mod 3)).
Proof. vm_compute. repeat split; [reflexivity..|discriminate]. Qed.

(** Three slots, counter at 0. *)
Lemma Get_round_robin_witness :
  let a := mkConnArray 0 [Some 0%nat; Some 1%nat; Some 2%nat] in
  1 ≤ Z.of_nat (length (v a)) < uint32_max
  ∧ 0 ≤ index a < uint32_max
  ∧ fst (Gets 3 a) = Ret <$> rotate 1 (v a)
  ∧ fst (Gets 4 a) = [Ret (Some 1%nat); Ret (Some 2%nat); Ret (Some 0%nat);
                      Ret (Some 1%nat)].
Proof.
  intros a.
  assert (Hk : 1 ≤ Z.of_nat (length (v a)) < uint32_max)
    by (vm_compute; split; congruence).
  assert (Hc : 0 ≤ index a < uint32_max) by (vm_compute; split; congruence).
  split; [exact Hk|]. split; [exact Hc|].
  destruct (Get_round_robin a Hk Hc) as (_ & _ & Hrot & Hfour).
  split.
  - apply Hrot. vm_compute. reflexivity.
  - apply Hfour; reflexivity.
Defined.

(** Three dials that succeed; ten slots with a third dial that fails. *)
Lemma newConnArray_all_or_nothing_witness :
  dials_ok dial_always_ok "A" [] 3
  ∧ dials_ok dial_third_fails "A" [] 2
  ∧ dial_third_fails ([] ++ replicate 2 (EvDial "A" None)) "A"
    = Some (TransportError 1)
  ∧ newConnArray dial_always_ok close_always_ok 3 "A" [] []
    = (Ok 0%nat, [mkConnArray 0 [Some 0%nat; Some 1%nat; Some 2%nat]],
       replicate 3 (EvDial "A" None))
  ∧ ∃ tr1,
      newConnArray dial_third_fails close_always_ok 10 "A" [] []
      = (Err (TransportError 1), [mkConnArray 0 (replicate 10 None)], tr1)
      ∧ dial_log tr1 = replicate 3 "A"
      ∧ close_log tr1 = [0; 1]%nat.
Proof.
  assert (H3 : dials_ok dial_always_ok "A" [] 3) by (intros j _; reflexivity).
  assert (H2 : dials_ok dial_third_fails "A" [] 2).
  { intros [|[|j]] Hj; [reflexivity..|lia]. }
  assert (Hf : dial_third_fails ([] ++ replicate 2 (EvDial "A" None)) "A"
               = Some (TransportError 1)) by reflexivity.
  split; [exact H3|]. split; [exact H2|]. split; [exact Hf|]. split.
  - destruct (newConnArray_all_or_nothing dial_always_ok close_always_ok 3 "A" [] [])
      as [Hok _].
    destruct (Hok H3) as [Heq _]. exact Heq.
  - destruct (newConnArray_all_or_nothing dial_third_fails close_always_ok 10 "A" [] [])
      as [_ Hfail].
    destruct (Hfail 2%nat (TransportError 1)) as (tr1 & Heq & Hd & Hc & _);
      [lia|exact H2|exact Hf|].
    exists tr1. split; [exact Heq|]. split; [exact Hd|exact Hc].
Defined.

(** C6: [closeConns] runs between the two critical sections of a call of
    [getConnArray].  When [closeConns] has returned the pool is closed and
    the registry empty; the call then registers a new array in the closed
    pool, and its ten connections are never closed. *)
Lemma createConnArray_registers_after_closeConns :
  let '(gs1, st1) :=
    run dial_always_ok close_always_ok canonical_range [0; 1]%nat
        [G_getConnArray "A"; G_closeConns] fresh in
  let '(gs2, st2) :=
    run dial_always_ok close_always_ok canonical_range [0]%nat gs1 st1 in
  gs1 = [G_createConnArray "A"; G_returned None]
  ∧ isClosed (client st1) = true
  ∧ conns (client st1) !! "A" = None
  ∧ gs2 = [G_returned (Some (Ok 0%nat)); G_returned None]
  ∧ isClosed (client st2) = true
  ∧ conns (client st2) !! "A" = Some 0%nat
  ∧ net st2 = replicate 10 (EvDial "A" None)
  ∧ closeConns close_always_ok canonical_range st2 = st2.
Proof. vm_compute. repeat split; reflexivity. Qed.

(** A fresh pool and a first dial that fails. *)
Lemma createConnArray_failure_witness :
  conns (client fresh) !! "A" = None
  ∧ dials_ok dial_first_fails "A" (net fresh) 0
  ∧ dial_first_fails (net fresh ++ replicate 0 (EvDial "A" None)) "A"
    = Some (TransportError 1)
  ∧ ∃ st1,
      createConnArray dial_first_fails close_always_ok "A" fresh
      = (Err (TransportError 1), st1)
      ∧ client st1 = client fresh.
Proof.
  assert (Hnone : conns (client fresh) !! "A" = None) by reflexivity.
  assert (Hok : dials_ok dial_first_fails "A" (net fresh) 0) by (intros j Hj; lia).
  assert (Hfail : dial_first_fails (net fresh ++ replicate 0 (EvDial "A" None)) "A"
                  = Some (TransportError 1)) by reflexivity.
  split; [exact Hnone|]. split; [exact Hok|]. split; [exact Hfail|].
  destruct (createConnArray_failure_registers_nothing dial_first_fails
              close_always_ok "A" fresh 0 (TransportError 1))
    as (st1 & Heq & Hclient & _); [exact Hnone|lia|exact Hok|exact Hfail|].
  exists st1. split; [exact Heq|exact Hclient].
Defined.

(** Two calls of [Get] on an array without slots. *)
Lemma newConnArray_zero_Get_panics_witness :
  v (mkConnArray 7 []) = []
  ∧ fst (Gets 2 (mkConnArray 7 [])) = [Panic DivideByZero; Panic DivideByZero].
Proof.
  split; [reflexivity|].
  destruct (newConnArray_zero_Get_panics dial_always_ok close_always_ok "A" [] [])
    as (_ & Hpanics & _).
  apply (Hpanics (mkConnArray 7 []) 2%nat). reflexivity.
Defined.

(** Against C10 as first stated: an array of 2^32 slots.  [uint32(len(a.v))] is 0 and [Get] panics
    on the division, before and after [Close]. *)
Lemma Get_after_Close_modulus_zero :
  let a := mkConnArray 0 (replicate (Z.to_nat uint32_max) None) in
  (1 ≤ length (v a))%nat
  ∧ fst (Get (fst (Close close_always_ok a []))) = Panic DivideByZero.
Proof.
  intros a.
  assert (Hlen : Z.of_nat (length (v a)) = uint32_max).
  { unfold a. cbn [v]. rewrite length_replicate, Z2Nat.id; [done|]. by compute. }
  split.
  - apply Nat2Z.inj_le. rewrite Hlen. by compute.
  - rewrite Close_spec. cbn [fst]. rewrite Get_zero_modulus; [done|].
    cbn [v]. rewrite length_replicate, Hlen. unfold uint32. apply Z_mod_same_full.
Qed.

(** Three open connections, closed, then [Get]. *)
Lemma Get_after_Close_witness :
  let a := mkConnArray 0 [Some 0%nat; Some 1%nat; Some 2%nat] in
  uint32 (Z.of_nat (length (v a))) ≠ 0
  ∧ fst (Get (fst (Close close_always_ok a (replicate 3 (EvDial "A" None)))))
    = Ret None.
Proof.
  intros a.
  assert (Hn : uint32 (Z.of_nat (length (v a))) ≠ 0) by (vm_compute; congruence).
  split; [exact Hn|].
  pose proof (Get_after_Close close_always_ok a (replicate 3 (EvDial "A" None)) Hn)
    as H.
  destruct (Close close_always_ok a (replicate 3 (EvDial "A" None))) as [a1 tr1].
  destruct H as [Hget _]. cbn [fst]. rewrite Hget. reflexivity.
Defined.

(** * Further properties of the pool *)

(** ** More about traces *)

Lemma dialed_lt tr c : dialed tr c → (c < length tr)%nat.
Proof. intros [addr H]. by eapply lookup_lt_Some. Qed.

Lemma dialed_app_l tr evs c :
  (c < length tr)%nat → dialed (tr ++ evs) c ↔ dialed tr c.
Proof. intros Hlt. unfold dialed. by rewrite lookup_app_l. Qed.

(** Events that are not dials open no connection. *)
Lemma dialed_app_no_dial tr evs c :
  dial_log evs = [] → dialed (tr ++ evs) c → dialed tr c.
Proof.
  intros Hnone [addr H].
  destruct (decide (c < length tr)%nat) as [Hlt|Hge].
  - exists addr. by rewrite lookup_app_l in H.
  - rewrite lookup_app_r in H by lia.
    assert (Hin : addr ∈ dial_log evs).
    { unfold dial_log. apply list_elem_of_omap. exists (EvDial addr None).
      split; [|done]. apply list_elem_of_lookup. eauto. }
    rewrite Hnone in Hin. by apply elem_of_nil in Hin.
Qed.

Lemma close_called_app_inv tr evs c :
  close_called (tr ++ evs) c → close_called tr c ∨ c ∈ close_log evs.
Proof.
  intros [r H]. rewrite drop_app in H.
  apply elem_of_app in H as [H|H]; [left; by exists r|right].
  unfold close_log. apply list_elem_of_omap. exists (EvClose c r).
  split; [|done].
  apply list_elem_of_lookup in H as [j H]. rewrite lookup_drop in H.
  apply list_elem_of_lookup. eauto.
Qed.

Lemma close_log_fail addr err : close_log [EvDial addr (Some err)] = [].
Proof. done. Qed.

Section CreateFacts.

Variable dial_result : trace → string → option error.
Variable close_result : trace → conn → option error.

(** Either the next [n] dials succeed or one of them is the first to fail. *)
Lemma dials_ok_or_fail addr tr n :
  dials_ok dial_result addr tr n
  ∨ ∃ i err, (i < n)%nat
      ∧ dials_ok dial_result addr tr i
      ∧ dial_result (tr ++ replicate i (EvDial addr None)) addr = Some err.
Proof.
  induction n as [|n [Hok|(i & err & Hi & Hok & Hfail)]].
  - left. intros j Hj. lia.
  - destruct (dial_result (tr ++ replicate n (EvDial addr None)) addr)
      as [err|] eqn:Hn.
    + right. exists n, err. split; [lia|]. by split.
    + left. intros j Hj. destruct (decide (j = n)) as [->|Hne]; [done|].
      apply Hok. lia.
  - right. exists i, err. split; [lia|]. by split.
Qed.

(** The three ways a call of [createConnArray] can go. *)
Lemma createConnArray_cases addr st :
  (∃ l, conns (client st) !! addr = Some l
        ∧ createConnArray dial_result close_result addr st = (Ok l, st))
  ∨ (conns (client st) !! addr = None
     ∧ dials_ok dial_result addr (net st) 10
     ∧ createConnArray dial_result close_result addr st
       = (Ok (length (heap st)), built addr st))
  ∨ (conns (client st) !! addr = None
     ∧ ∃ i err, (i < 10)%nat
         ∧ dials_ok dial_result addr (net st) i
         ∧ createConnArray dial_result close_result addr st
           = (Err err, abandoned close_result addr i err st)).
Proof.
  unfold createConnArray.
  destruct (conns (client st) !! addr) as [l|] eqn:Hreg; [left; by exists l|].
  right. destruct (dials_ok_or_fail addr (net st) 10)
    as [Hok|(i & err & Hi & Hok & Hfail)].
  - left. split; [done|]. split; [done|].
    by rewrite newConnArray_ok.
  - right. split; [done|]. exists i, err. split; [done|]. split; [done|].
    by rewrite (newConnArray_fail _ _ _ _ _ _ i err).
Qed.

(** A call of [getConnArray] either stops at the closed flag or is a call of
    [createConnArray] (which finds the address when it is registered). *)
Lemma getConnArray_cases addr st :
  (isClosed (client st) = true
   ∧ getConnArray dial_result close_result addr st
     = (Err (errors_New "rpc client is closed"), st))
  ∨ (isClosed (client st) = false
     ∧ getConnArray dial_result close_result addr st
       = createConnArray dial_result close_result addr st).
Proof.
  unfold getConnArray. destruct (isClosed (client st)); [by left|right].
  split; [done|].
  destruct (conns (client st) !! addr) as [l|] eqn:Hreg.
  - unfold createConnArray. by rewrite Hreg.
  - by destruct (createConnArray _ _ _ _) as [[l|err] st1].
Qed.

(** The events a failed construction appends: [i] dials, the failed one,
    then the closes of the [i] connections. *)
Lemma abandoned_net addr i err st :
  ∃ evs,
    net (abandoned close_result addr i err st)
    = (net st ++ replicate i (EvDial addr None) ++ [EvDial addr (Some err)])
      ++ evs
    ∧ close_log evs = seq (length (net st)) i
    ∧ dial_log evs = [].
Proof. unfold abandoned. cbn [net]. apply close_all_extends. Qed.

End CreateFacts.

(** ** One call of [getConnArray] and the rest of the pool *)

(** Appended events that close only connections dialed later leave the
    earlier connections as they were. *)
Lemma is_open_app_old tr evs c :
  (c < length tr)%nat →
  (∀ c', c' ∈ close_log evs → (length tr ≤ c')%nat) →
  is_open (tr ++ evs) c ↔ is_open tr c.
Proof.
  intros Hlt Hnew. unfold is_open. rewrite dialed_app_l by done.
  split; intros [Hd Hn]; (split; [done|]); intros Hc; apply Hn.
  - by apply close_called_mono.
  - apply close_called_app_inv in Hc as [Hc|Hc]; [done|].
    apply Hnew in Hc. lia.
Qed.

Lemma built_open_old addr st c :
  (c < length (net st))%nat →
  is_open (net (built addr st)) c ↔ is_open (net st) c.
Proof.
  intros Hlt. unfold built. cbn [net]. apply is_open_app_old; [done|].
  intros c'. rewrite close_log_dials. intros Hin. by apply elem_of_nil in Hin.
Qed.

Lemma built_open_new addr st c :
  c ∈ seq (length (net st)) 10 → is_open (net (built addr st)) c.
Proof.
  intros Hc. unfold built. cbn [net]. split; [by apply dialed_dials|].
  apply not_close_called_dials, not_close_called_ge.
  apply elem_of_seq in Hc. lia.
Qed.

Section AbandonedFacts.

Variable close_result : trace → conn → option error.

(** A failed construction opens nothing for good: the connections that are
    open afterwards are those that were open before. *)
Lemma abandoned_open addr i err st c :
  is_open (net (abandoned close_result addr i err st)) c ↔ is_open (net st) c.
Proof.
  destruct (abandoned_net close_result addr i err st) as (evs & -> & Hcl & Hdl).
  destruct (decide (c < length (net st))%nat) as [Hlt|Hge].
  - rewrite <- app_assoc. apply is_open_app_old; [done|].
    intros c'. rewrite !close_log_app, close_log_dials, close_log_fail, Hcl.
    cbn [app]. rewrite elem_of_seq. lia.
  - split.
    + intros [Hd Hn]. exfalso.
      apply dialed_app_no_dial in Hd; [|done].
      destruct Hd as [a Ha]. rewrite lookup_app_r in Ha by lia.
      destruct (decide (c - length (net st) < i)%nat) as [Hi|Hi].
      * apply Hn.
        assert (Hin : c ∈ close_log evs) by (rewrite Hcl, elem_of_seq; lia).
        apply elem_of_close_log in Hin as [r Hin].
        apply (close_called_app_r _ _ _ r); [|done].
        rewrite !length_app, length_replicate. simpl. lia.
      * rewrite lookup_app_r in Ha by (rewrite length_replicate; lia).
        rewrite length_replicate in Ha.
        destruct (c - length (net st) - i)%nat; simpl in Ha; [congruence|done].
    + intros [Hd _]. apply dialed_lt in Hd. lia.
Qed.

End AbandonedFacts.

Section GetFacts.

Variable dial_result : trace → string → option error.
Variable close_result : trace → conn → option error.

(** [createConnArray] adds to the pool and takes nothing away. *)
Lemma createConnArray_preserves addr st :
  let st1 := snd (createConnArray dial_result close_result addr st) in
  isClosed (client st1) = isClosed (client st)
  ∧ heap st `prefix_of` heap st1
  ∧ net st `prefix_of` net st1
  ∧ (∀ addr', addr' ≠ addr →
       conns (client st1) !! addr' = conns (client st) !! addr')
  ∧ (∀ l, conns (client st) !! addr = Some l →
       conns (client st1) !! addr = Some l)
  ∧ (∀ c, (c < length (net st))%nat →
       is_open (net st1) c ↔ is_open (net st) c).
Proof.
  destruct (createConnArray_cases dial_result close_result addr st)
    as [(l & Hreg & ->)|[(Hreg & Hok & ->)|(Hreg & i & err & Hi & Hok & ->)]];
    cbn [snd].
  - done.
  - unfold built at 1 2 3 4 5. cbn [client heap net isClosed conns].
    split; [done|]. split; [by eexists|]. split; [by eexists|].
    split; [intros addr' Hne; by rewrite lookup_insert_ne|].
    split; [intros l Hl; congruence|].
    intros c Hc. by apply built_open_old.
  - destruct (abandoned_net close_result addr i err st) as (evs & Hnet & _).
    split; [done|]. split; [by eexists|].
    split; [rewrite Hnet, <- app_assoc; by eexists|].
    split; [done|]. split; [done|].
    intros c _. apply abandoned_open.
Qed.

End GetFacts.

(** X5. A call of [getConnArray addr] only ever adds to the pool: the
    closed flag keeps its value, the arrays on the heap and the past of the
    transport stay as they are, the entries of the other addresses and an
    existing entry of [addr] are kept, and every connection dialed before
    the call is open afterwards exactly when it was open before. *)
Theorem getConnArray_preserves
    (dial_result : trace → string → option error)
    (close_result : trace → conn → option error)
    (addr : string) (st : State) :
  let st1 := snd (getConnArray dial_result close_result addr st) in
  isClosed (client st1) = isClosed (client st)
  ∧ heap st `prefix_of` heap st1
  ∧ net st `prefix_of` net st1
  ∧ (∀ addr', addr' ≠ addr →
       conns (client st1) !! addr' = conns (client st) !! addr')
  ∧ (∀ l, conns (client st) !! addr = Some l →
       conns (client st1) !! addr = Some l)
  ∧ (∀ c, (c < length (net st))%nat →
       is_open (net st1) c ↔ is_open (net st) c).
Proof.
  destruct (getConnArray_cases dial_result close_result addr st)
    as [[_ ->]|[_ ->]].
  - done.
  - apply createConnArray_preserves.
Qed.

(** X6. A call of [getConnArray] that returns an error leaves no trace in
    the pool: the client is the same, and exactly the connections that were
    open are open; whatever the failed construction dialed it has closed. *)
Theorem getConnArray_error_no_leak
    (dial_result : trace → string → option error)
    (close_result : trace → conn → option error)
    (addr : string) (st st1 : State) (e : error) :
  getConnArray dial_result close_result addr st = (Err e, st1) →
  client st1 = client st
  ∧ ∀ c, is_open (net st1) c ↔ is_open (net st) c.
Proof.
  intros Hget.
  destruct (getConnArray_cases dial_result close_result addr st)
    as [[_ Heq]|[_ Heq]]; rewrite Heq in Hget.
  - by injection Hget as _ <-.
  - destruct (createConnArray_cases dial_result close_result addr st)
      as [(l & _ & Hc)|[(_ & _ & Hc)|(_ & i & err & _ & _ & Hc)]];
      rewrite Hc in Hget; try discriminate.
    injection Hget as _ <-. split; [done|].
    intros c. apply abandoned_open.
Qed.

(** X7. A call of [getConnArray addr] dials only [addr] and at most ten
    times, and allocates at most one array.  It dials nothing and changes
    nothing when the pool is closed or the address registered, and a call
    that returns an array has dialed either nothing or exactly ten times. *)
Theorem getConnArray_dials
    (dial_result : trace → string → option error)
    (close_result : trace → conn → option error)
    (addr : string) (st : State) :
  let r := fst (getConnArray dial_result close_result addr st) in
  let st1 := snd (getConnArray dial_result close_result addr st) in
  (∃ k, (k ≤ 10)%nat
        ∧ dial_log (net st1) = dial_log (net st) ++ replicate k addr
        ∧ (∀ l, r = Ok l → k = 0%nat ∨ k = 10%nat))
  ∧ (length (heap st1) ≤ S (length (heap st)))%nat
  ∧ (isClosed (client st) = true ∨ is_Some (conns (client st) !! addr) →
     st1 = st).
Proof.
  destruct (getConnArray_cases dial_result close_result addr st)
    as [[Hclosed ->]|[Hopen ->]]; cbn [fst snd].
  { split; [|split; [lia|done]].
    exists 0%nat. split; [lia|]. split; [by rewrite app_nil_r|done]. }
  destruct (createConnArray_cases dial_result close_result addr st)
    as [(l & Hreg & ->)|[(Hreg & Hok & ->)|(Hreg & i & err & Hi & Hok & ->)]];
    cbn [fst snd].
  - split; [|split; [lia|done]].
    exists 0%nat. split; [lia|]. split; [by rewrite app_nil_r|auto].
  - split; [|split].
    + exists 10%nat. split; [lia|]. split; [|auto].
      unfold built. cbn [net]. by rewrite dial_log_app, dial_log_dials.
    + unfold built. cbn [heap]. rewrite length_app. simpl. lia.
    + intros [Hc|[l Hl]]; congruence.
  - destruct (abandoned_net close_result addr i err st) as (evs & Hnet & _ & Hdl).
    split; [|split].
    + exists (S i). split; [lia|]. split; [|done].
      rewrite Hnet, replicate_S_end, !dial_log_app, dial_log_dials, Hdl.
      by rewrite app_nil_r.
    + unfold abandoned. cbn [heap]. rewrite length_app. simpl. lia.
    + intros [Hc|[l Hl]]; congruence.
Qed.


(** ** Shutting the pool down *)

Section ShutdownFacts.

Variable close_result : trace → conn → option error.
Variable range : map_range.

Lemma Close_at_extends l h tr :
  ∃ evs, (Close_at close_result l h tr).2 = tr ++ evs ∧ dial_log evs = [].
Proof.
  unfold Close_at. destruct (h !! l) as [a|].
  - rewrite Close_spec. cbn [snd].
    destruct (close_all_extends close_result (omap id (v a)) tr)
      as (evs & -> & _ & Hdl).
    by exists evs.
  - exists []. by rewrite app_nil_r.
Qed.

Lemma Close_each_extends ls h tr :
  ∃ evs, (Close_each close_result ls h tr).2 = tr ++ evs ∧ dial_log evs = [].
Proof.
  revert h tr. induction ls as [|l ls IH]; intros h tr.
  - exists []. by rewrite app_nil_r.
  - cbn [Close_each]. destruct (Close_at_extends l h tr) as (evs0 & H0 & Hd0).
    destruct (Close_at close_result l h tr) as [h1 tr1]. cbn [snd] in H0. subst tr1.
    destruct (IH h1 (tr ++ evs0)) as (evs1 & -> & Hd1).
    exists (evs0 ++ evs1). rewrite dial_log_app, Hd0, Hd1, app_assoc. done.
Qed.

Lemma Close_at_closes l h tr a c :
  h !! l = Some a → Some c ∈ v a → (c < length tr)%nat →
  close_called (Close_at close_result l h tr).2 c.
Proof.
  intros Ha Hc Hlt. unfold Close_at. rewrite Ha, Close_spec. cbn [snd].
  apply close_called_close_all; [|done].
  apply list_elem_of_omap. by exists (Some c).
Qed.

Lemma Close_each_closes ls h tr l a c :
  l ∈ ls → h !! l = Some a → Some c ∈ v a → (c < length tr)%nat →
  close_called (Close_each close_result ls h tr).2 c.
Proof.
  revert h tr. induction ls as [|l0 ls IH]; intros h tr Hin Ha Hc Hlt.
  - by apply elem_of_nil in Hin.
  - cbn [Close_each].
    pose proof (Close_at_heap close_result l0 h tr l) as Hheap.
    destruct (Close_at_extends l0 h tr) as (evs0 & H0 & _).
    destruct (decide (l = l0)) as [->|Hne].
    + pose proof (Close_at_closes l0 h tr a c Ha Hc Hlt) as Hclosed.
      destruct (Close_at close_result l0 h tr) as [h1 tr1]. cbn [snd] in *.
      destruct (Close_each_extends ls h1 tr1) as (evs1 & -> & _).
      by apply close_called_mono.
    + apply elem_of_cons in Hin as [?|Hin]; [done|].
      destruct (Close_at close_result l0 h tr) as [h1 tr1]. cbn [fst snd] in *.
      apply (IH h1 tr1 Hin); [by rewrite Hheap| done |].
      subst tr1. rewrite length_app. lia.
Qed.

Lemma Close_each_length ls h tr :
  length (Close_each close_result ls h tr).1 = length h.
Proof.
  revert h tr. induction ls as [|l ls IH]; intros h tr; [done|].
  cbn [Close_each].
  assert (Hlen : length (Close_at close_result l h tr).1 = length h).
  { unfold Close_at. destruct (h !! l) as [a|]; [|done].
    destruct (Close close_result a tr) as [a1 tr1]. cbn [fst].
    apply length_insert. }
  destruct (Close_at close_result l h tr) as [h1 tr1]. cbn [fst] in Hlen.
  by rewrite IH.
Qed.

Lemma registered_in_range (reg : gmap string loc) addr l :
  reg !! addr = Some l → l ∈ (snd <$> range reg).
Proof.
  intros Hreg. apply list_elem_of_fmap. exists (addr, l). split; [done|].
  rewrite (range_perm range). by apply elem_of_map_to_list.
Qed.

Lemma in_range_registered (reg : gmap string loc) l :
  l ∈ (snd <$> range reg) → ∃ addr, reg !! addr = Some l.
Proof.
  intros Hin. apply list_elem_of_fmap in Hin as ([addr l'] & -> & Hin).
  rewrite (range_perm range) in Hin. apply elem_of_map_to_list in Hin.
  by exists addr.
Qed.

(** What [closeConns] does to an open pool, field by field. *)
Lemma closeConns_open st :
  isClosed (client st) = false →
  closeConns close_result range st
  = mkState (mkRpcClient true (conns (client st)))
      (Close_each close_result (snd <$> range (conns (client st)))
                  (heap st) (net st)).1
      (Close_each close_result (snd <$> range (conns (client st)))
                  (heap st) (net st)).2.
Proof.
  intros Hopen. unfold closeConns. rewrite Hopen.
  by destruct (Close_each _ _ _ _).
Qed.

End ShutdownFacts.

(** X3. [closeConns] on an open pool sets the flag, keeps the registry and
    dials nothing.  Every registered array has all its slots nulled and
    [Close] has been called on every connection it held; arrays that are not
    registered are not touched. *)
Theorem closeConns_shuts_down
    (close_result : trace → conn → option error) (range : map_range)
    (st : State) :
  isClosed (client st) = false →
  let st1 := closeConns close_result range st in
  isClosed (client st1) = true
  ∧ conns (client st1) = conns (client st)
  ∧ dial_log (net st1) = dial_log (net st)
  ∧ net st `prefix_of` net st1
  ∧ (∀ addr l a,
       conns (client st) !! addr = Some l → heap st !! l = Some a →
       heap st1 !! l = Some (nulled a)
       ∧ ∀ c, Some c ∈ v a → (c < length (net st))%nat →
              close_called (net st1) c)
  ∧ (∀ l, (∀ addr, conns (client st) !! addr ≠ Some l) →
       heap st1 !! l = heap st !! l).
Proof.
  intros Hopen st1. unfold st1. rewrite closeConns_open by done.
  cbn [client heap net isClosed conns].
  destruct (Close_each_extends close_result
              (snd <$> range (conns (client st))) (heap st) (net st))
    as (evs & Hnet & Hdl).
  split; [done|]. split; [done|].
  split; [by rewrite Hnet, dial_log_app, Hdl, app_nil_r|].
  split; [rewrite Hnet; by eexists|]. split.
  - intros addr l a Hreg Ha. split.
    + rewrite Close_each_heap, decide_True, Ha; [done|].
      by eapply registered_in_range.
    + intros c Hc Hlt. eapply Close_each_closes; [|done..].
      by eapply registered_in_range.
  - intros l Hnot. rewrite Close_each_heap, decide_False; [done|].
    intros Hin. apply in_range_registered in Hin as [addr Hreg].
    by apply (Hnot addr).
Qed.

(** ** Invariants under every schedule *)

Section RunFacts.

Variable dial_result : trace → string → option error.
Variable close_result : trace → conn → option error.
Variable range : map_range.

(** A step leaves the state alone, or it is a construction that succeeds or
    fails for an address that was missing, or it shuts an open pool down. *)
Lemma step_cases g st :
  let st1 := (step dial_result close_result range g st).2 in
  st1 = st
  ∨ (∃ addr, g = G_createConnArray addr
       ∧ conns (client st) !! addr = None
       ∧ (step dial_result close_result range g st).1
         = G_returned (Some (Ok (length (heap st))))
       ∧ st1 = built addr st)
  ∨ (∃ addr i err, g = G_createConnArray addr
       ∧ conns (client st) !! addr = None
       ∧ (i < 10)%nat
       ∧ st1 = abandoned close_result addr i err st)
  ∨ (g = G_closeConns
     ∧ isClosed (client st) = false
     ∧ st1 = closeConns close_result range st).
Proof.
  destruct g as [addr|addr| |r]; cbn [step].
  - left. destruct (isClosed (client st)); [done|].
    by destruct (conns (client st) !! addr).
  - destruct (createConnArray_cases dial_result close_result addr st)
      as [(l & Hreg & ->)|[(Hreg & Hok & ->)|(Hreg & i & err & Hi & Hok & ->)]];
      cbn [fst snd].
    + by left.
    + right. left. by exists addr.
    + right. right. left. by exists addr, i, err.
  - cbn [snd]. destruct (isClosed (client st)) eqn:Hc.
    + left. by apply closeConns_closed.
    + right. right. right. done.
  - by left.
Qed.

(** What every step keeps, every run keeps. *)
Lemma run_invariant (P : State → Prop) :
  (∀ g st, P st → P (step dial_result close_result range g st).2) →
  ∀ sched gs st, P st → P (run dial_result close_result range sched gs st).2.
Proof.
  intros Hstep sched. induction sched as [|i sched IH]; intros gs st HP; [done|].
  cbn [run]. unfold step_at. destruct (gs !! i) as [g|]; [|by apply IH].
  specialize (Hstep g st HP).
  destruct (step _ _ _ g st) as [g1 st1]. by apply IH.
Qed.

(** No step removes or redirects an entry of the registry. *)
Lemma step_registry g st addr l :
  conns (client st) !! addr = Some l →
  conns (client (step dial_result close_result range g st).2) !! addr = Some l.
Proof.
  intros Hreg.
  destruct (step_cases g st)
    as [->|[(a & _ & Hnone & _ & ->)|[(a & i & err & _ & _ & _ & ->)
       |(_ & Hopen & ->)]]].
  - done.
  - unfold built. cbn [client conns].
    rewrite lookup_insert_ne; [done|]. intros ->. congruence.
  - done.
  - by rewrite closeConns_open.
Qed.

Lemma built_pool_inv addr st :
  conns (client st) !! addr = None → pool_inv st → pool_inv (built addr st).
Proof.
  intros Hnone Hinv a l. unfold built at 1. cbn [client conns].
  destruct (decide (a = addr)) as [->|Hne].
  - rewrite lookup_insert_eq. intros [= <-]. split.
    + intros a'. unfold built. cbn [client conns].
      destruct (decide (a' = addr)) as [->|Hne']; [done|].
      rewrite lookup_insert_ne by done. intros Hreg.
      destruct (Hinv a' _ Hreg) as (_ & arr & Harr & _).
      apply lookup_lt_Some in Harr. lia.
    + exists (mkConnArray 0 (Some <$> seq (length (net st)) 10)).
      split; [|split].
      * unfold built. cbn [heap]. by apply list_lookup_middle.
      * cbn [v]. by rewrite length_fmap, length_seq.
      * intros _. exists (length (net st)). split; [done|].
        intros c. apply built_open_new.
  - rewrite lookup_insert_ne by done. intros Hreg.
    destruct (Hinv a l Hreg) as (Hinj & arr & Harr & Hlen & Hlive). split.
    + intros a'. unfold built. cbn [client conns].
      destruct (decide (a' = addr)) as [->|Hne'].
      * rewrite lookup_insert_eq. intros [= <-].
        apply lookup_lt_Some in Harr. lia.
      * rewrite lookup_insert_ne by done. apply Hinj.
    + exists arr. split; [|split; [done|]].
      * unfold built. cbn [heap]. by apply lookup_app_l_Some.
      * unfold built at 1. cbn [client isClosed]. intros Hopen.
        destruct (Hlive Hopen) as (b & Hv & Hb). exists b. split; [done|].
        intros c Hc. specialize (Hb c Hc).
        apply built_open_old; [|done]. destruct Hb as [Hd _]. by apply dialed_lt.
Qed.

Lemma abandoned_pool_inv addr i err st :
  pool_inv st → pool_inv (abandoned close_result addr i err st).
Proof.
  intros Hinv a l. unfold abandoned at 1. cbn [client]. intros Hreg.
  destruct (Hinv a l Hreg) as (Hinj & arr & Harr & Hlen & Hlive).
  split; [exact Hinj|]. exists arr. split; [|split; [done|]].
  - unfold abandoned. cbn [heap]. by apply lookup_app_l_Some.
  - unfold abandoned at 1. cbn [client]. intros Hopen.
    destruct (Hlive Hopen) as (b & Hv & Hb). exists b. split; [done|].
    intros c Hc. apply abandoned_open. by apply Hb.
Qed.

Lemma closeConns_pool_inv st :
  isClosed (client st) = false →
  pool_inv st → pool_inv (closeConns close_result range st).
Proof.
  intros Hopen Hinv a l. rewrite closeConns_open by done.
  cbn [client conns heap isClosed]. intros Hreg.
  destruct (Hinv a l Hreg) as (Hinj & arr & Harr & Hlen & _).
  split; [exact Hinj|]. exists (nulled arr). split; [|split; [|done]].
  - rewrite Close_each_heap, decide_True, Harr; [done|].
    by eapply registered_in_range.
  - unfold nulled. cbn [v]. by rewrite length_replicate.
Qed.

Lemma step_pool_inv g st :
  pool_inv st → pool_inv (step dial_result close_result range g st).2.
Proof.
  intros Hinv.
  destruct (step_cases g st)
    as [->|[(a & _ & Hnone & _ & ->)|[(a & i & err & _ & _ & _ & ->)
       |(_ & Hopen & ->)]]].
  - done.
  - by apply built_pool_inv.
  - by apply abandoned_pool_inv.
  - by apply closeConns_pool_inv.
Qed.

Lemma built_no_leak addr st :
  conns (client st) !! addr = None → no_leak st → no_leak (built addr st).
Proof.
  intros Hnone Hleak c Hc.
  destruct (decide (c < length (net st))%nat) as [Hlt|Hge].
  - apply built_open_old in Hc; [|done].
    destruct (Hleak c Hc) as (a & l & arr & Hreg & Harr & Hin).
    exists a, l, arr. unfold built. cbn [client conns heap].
    split; [|split; [|done]].
    + rewrite lookup_insert_ne; [done|]. intros ->. congruence.
    + by apply lookup_app_l_Some.
  - exists addr, (length (heap st)),
      (mkConnArray 0 (Some <$> seq (length (net st)) 10)).
    unfold built. cbn [client conns heap v].
    split; [apply lookup_insert_eq|]. split; [by apply list_lookup_middle|].
    apply list_elem_of_fmap. exists c. split; [done|].
    destruct Hc as [Hd _]. apply dialed_lt in Hd.
    unfold built in Hd. cbn [net] in Hd.
    rewrite length_app, length_replicate in Hd.
    apply elem_of_seq. lia.
Qed.

Lemma abandoned_no_leak addr i err st :
  no_leak st → no_leak (abandoned close_result addr i err st).
Proof.
  intros Hleak c Hc. apply abandoned_open in Hc.
  destruct (Hleak c Hc) as (a & l & arr & Hreg & Harr & Hin).
  exists a, l, arr. unfold abandoned. cbn [client heap].
  split; [done|]. split; [|done]. by apply lookup_app_l_Some.
Qed.

(** After [closeConns] on an open pool without leaks, nothing is open. *)
Lemma closeConns_nothing_open st c :
  isClosed (client st) = false →
  no_leak st →
  ¬ is_open (net (closeConns close_result range st)) c.
Proof.
  intros Hopen Hleak. rewrite closeConns_open by done. cbn [net].
  destruct (Close_each_extends close_result
              (snd <$> range (conns (client st))) (heap st) (net st))
    as (evs & Hnet & Hdl).
  intros [Hd Hn].
  assert (Hd0 : dialed (net st) c).
  { rewrite Hnet in Hd. by apply dialed_app_no_dial in Hd. }
  assert (Hopen0 : is_open (net st) c).
  { split; [done|]. intros Hc. apply Hn. rewrite Hnet.
    by apply close_called_mono. }
  destruct (Hleak c Hopen0) as (a & l & arr & Hreg & Harr & Hin).
  apply Hn. eapply Close_each_closes; [|done..|by apply dialed_lt].
  by eapply registered_in_range.
Qed.

Lemma step_no_leak g st :
  no_leak st → no_leak (step dial_result close_result range g st).2.
Proof.
  intros Hleak.
  destruct (step_cases g st)
    as [->|[(a & _ & Hnone & _ & ->)|[(a & i & err & _ & _ & _ & ->)
       |(_ & Hopen & ->)]]].
  - done.
  - by apply built_no_leak.
  - by apply abandoned_no_leak.
  - intros c Hc. by destruct (closeConns_nothing_open st c).
Qed.

Lemma fresh_pool_inv : pool_inv fresh.
Proof. intros a l Hreg. unfold fresh in Hreg. cbn in Hreg. done. Qed.

Lemma fresh_no_leak : no_leak fresh.
Proof. intros c [Hd _]. apply dialed_lt in Hd. simpl in Hd. lia. Qed.

End RunFacts.

(** X4. Under every schedule of every goroutines, an address that is
    registered stays registered to the same array: nothing in the pool
    removes or replaces an entry, [closeConns] included. *)
Theorem registry_stable
    (dial_result : trace → string → option error)
    (close_result : trace → conn → option error)
    (range : map_range)
    (sched : list nat) (gs : list goroutine) (st : State)
    (addr : string) (l : loc) :
  conns (client st) !! addr = Some l →
  conns (client (run dial_result close_result range sched gs st).2) !! addr
  = Some l.
Proof.
  apply (run_invariant dial_result close_result range
           (λ s, conns (client s) !! addr = Some l)).
  intros g s. apply step_registry.
Qed.

(** X1. In every state the pool reaches from a fresh client, while it is
    open, each registered array holds ten connections dialed one after the
    other and all open.  So [Get] on such an array, whatever its counter,
    never panics and always returns an open connection. *)
Theorem registered_arrays_live
    (dial_result : trace → string → option error)
    (close_result : trace → conn → option error)
    (range : map_range)
    (sched : list nat) (gs : list goroutine) (addr : string) (l : loc) :
  let st := (run dial_result close_result range sched gs fresh).2 in
  isClosed (client st) = false →
  conns (client st) !! addr = Some l →
  ∃ a b,
    heap st !! l = Some a
    ∧ v a = Some <$> seq b 10
    ∧ (∀ c, c ∈ seq b 10 → is_open (net st) c)
    ∧ ∀ idx n,
        Forall (λ r, ∃ c, r = Ret (Some c) ∧ is_open (net st) c)
               (fst (Gets n (mkConnArray idx (v a)))).
Proof.
  intros st Hopen Hreg.
  pose proof (run_invariant dial_result close_result range pool_inv
                (step_pool_inv dial_result close_result range)
                sched gs fresh fresh_pool_inv) as Hinv.
  destruct (Hinv addr l Hreg) as (_ & a & Ha & Hlen & Hlive).
  destruct (Hlive Hopen) as (b & Hv & Hb).
  exists a, b. split; [done|]. split; [done|]. split; [done|].
  intros idx n. apply Forall_lookup_2. intros i r Hr.
  assert (Hi : (i < n)%nat).
  { apply lookup_lt_Some in Hr. by rewrite Gets_length in Hr. }
  destruct (Gets_lookup n (mkConnArray idx (v a)) i) as (slot & Hslot & Hget);
    [cbn [v]; by rewrite Hlen|done|].
  rewrite Hget in Hr. injection Hr as <-.
  cbn [v] in Hslot. apply list_elem_of_lookup_2 in Hslot.
  rewrite Hv in Hslot. apply list_elem_of_fmap in Hslot as (c & -> & Hc).
  exists c. split; [done|]. by apply Hb.
Qed.

(** X2. In every state the pool reaches from a fresh client, open or
    closed, two addresses never share an array, and every registered pointer
    leads to an array of exactly ten slots. *)
Theorem registered_arrays_distinct
    (dial_result : trace → string → option error)
    (close_result : trace → conn → option error)
    (range : map_range)
    (sched : list nat) (gs : list goroutine) (addr1 addr2 : string) (l : loc) :
  let st := (run dial_result close_result range sched gs fresh).2 in
  conns (client st) !! addr1 = Some l →
  (conns (client st) !! addr2 = Some l → addr2 = addr1)
  ∧ ∃ a, heap st !! l = Some a ∧ length (v a) = 10%nat.
Proof.
  intros st Hreg.
  pose proof (run_invariant dial_result close_result range pool_inv
                (step_pool_inv dial_result close_result range)
                sched gs fresh fresh_pool_inv) as Hinv.
  destruct (Hinv addr1 l Hreg) as (Hinj & a & Ha & Hlen & _).
  split; [apply Hinj|]. by exists a.
Qed.

(** X12. In every state the pool reaches from a fresh client, every open
    connection sits in a slot of a registered array: no connection is left
    open out of reach.  Hence [closeConns] on such a pool, while it is
    open, leaves no connection open at all. *)
Theorem no_connection_leaks
    (dial_result : trace → string → option error)
    (close_result : trace → conn → option error)
    (range : map_range)
    (sched : list nat) (gs : list goroutine) :
  let st := (run dial_result close_result range sched gs fresh).2 in
  (∀ c, is_open (net st) c →
     ∃ addr l a, conns (client st) !! addr = Some l
                 ∧ heap st !! l = Some a
                 ∧ Some c ∈ v a)
  ∧ (isClosed (client st) = false →
     ∀ c, ¬ is_open (net (closeConns close_result range st)) c).
Proof.
  intros st.
  pose proof (run_invariant dial_result close_result range no_leak
                (step_no_leak dial_result close_result range)
                sched gs fresh fresh_no_leak) as Hleak.
  split; [exact Hleak|].
  intros Hopen c. by apply closeConns_nothing_open.
Qed.

Section FrozenFacts.

Variable dial_result : trace → string → option error.
Variable close_result : trace → conn → option error.
Variable range : map_range.

Lemma step_closed_frozen g st :
  isClosed (client st) = true →
  (∀ a, g ≠ G_createConnArray a) →
  (step dial_result close_result range g st).2 = st
  ∧ ∀ a, (step dial_result close_result range g st).1 ≠ G_createConnArray a.
Proof.
  intros Hclosed Hg. destruct g as [a|a| |r]; cbn [step].
  - by rewrite Hclosed.
  - by destruct (Hg a).
  - split; [by apply closeConns_closed|done].
  - done.
Qed.

End FrozenFacts.

(** X9. A closed pool with no call of [createConnArray] in flight is
    frozen: under every schedule, calls of [getConnArray] and [closeConns]
    leave the client, the heap and the transport exactly as they are, and
    none of them gets to [createConnArray]. *)
Theorem closed_pool_frozen
    (dial_result : trace → string → option error)
    (close_result : trace → conn → option error)
    (range : map_range)
    (sched : list nat) (gs : list goroutine) (st : State) :
  isClosed (client st) = true →
  Forall (λ g, ∀ a, g ≠ G_createConnArray a) gs →
  (run dial_result close_result range sched gs st).2 = st
  ∧ Forall (λ g, ∀ a, g ≠ G_createConnArray a)
           (run dial_result close_result range sched gs st).1.
Proof.
  intros Hclosed. revert gs.
  induction sched as [|i sched IH]; intros gs Hgs; [done|].
  cbn [run]. unfold step_at. destruct (gs !! i) as [g|] eqn:Hg; [|by apply IH].
  destruct (step_closed_frozen dial_result close_result range g st Hclosed)
    as [Hst Hg1]; [exact (Forall_lookup_1 _ _ _ _ Hgs Hg)|].
  destruct (step _ _ _ g st) as [g1 st1]. cbn [fst snd] in *. subst st1.
  apply IH. by apply Forall_insert.
Qed.

Section CallsFacts.

Variable dial_result : trace → string → option error.
Variable close_result : trace → conn → option error.
Variable range : map_range.

Lemma getting_mono a (reg reg' : gmap string loc) g :
  (∀ l, reg !! a = Some l → reg' !! a = Some l) →
  getting a reg g → getting a reg' g.
Proof. intros Hmono. destruct g as [?|?| |[[l|e]|]]; simpl; auto. Qed.

(** A goroutine inside a call of [getConnArray a] stays inside it or
    returns from it, and what it returns is the array registered for [a]. *)
Lemma step_getting a g st :
  getting a (conns (client st)) g →
  getting a (conns (client (step dial_result close_result range g st).2))
            (step dial_result close_result range g st).1.
Proof.
  destruct g as [a'|a'| |r]; cbn [step].
  - simpl. intros ->. destruct (isClosed (client st)); [done|].
    by destruct (conns (client st) !! a) as [l|] eqn:Hl.
  - simpl. intros ->.
    destruct (createConnArray_cases dial_result close_result a st)
      as [(l & Hreg & ->)|[(Hreg & Hok & ->)|(Hreg & i & err & Hi & Hok & ->)]];
      cbn [fst snd]; simpl; [done| |done].
    apply lookup_insert_eq.
  - done.
  - done.
Qed.

Lemma step_at_calls gs0 i gs st :
  calls gs0 gs (conns (client st)) →
  calls gs0 (step_at dial_result close_result range i gs st).1
        (conns (client (step_at dial_result close_result range i gs st).2)).
Proof.
  intros Hcalls. unfold step_at.
  destruct (gs !! i) as [g|] eqn:Hg; [|done].
  pose proof (step_getting) as Hself.
  pose proof (step_registry dial_result close_result range g st) as Hreg.
  intros j a Hj. destruct (Hcalls j a Hj) as (gj & Hgj & Hget).
  destruct (decide (j = i)) as [->|Hne].
  - assert (gj = g) as -> by congruence.
    specialize (Hself a g st Hget).
    destruct (step _ _ _ g st) as [g1 st1]. cbn [fst snd] in *.
    exists g1. split; [|done].
    apply list_lookup_insert_eq. by eapply lookup_lt_Some.
  - destruct (step _ _ _ g st) as [g1 st1]. cbn [fst snd] in *.
    exists gj. split; [by rewrite list_lookup_insert_ne|].
    eapply getting_mono; [|done]. intros l. apply Hreg.
Qed.

Lemma run_calls gs0 sched gs st :
  calls gs0 gs (conns (client st)) →
  calls gs0 (run dial_result close_result range sched gs st).1
        (conns (client (run dial_result close_result range sched gs st).2)).
Proof.
  revert gs st. induction sched as [|i sched IH]; intros gs st Hcalls; [done|].
  cbn [run]. pose proof (step_at_calls gs0 i gs st Hcalls) as Hstep.
  destruct (step_at _ _ _ i gs st) as [gs1 st1]. by apply IH.
Qed.

Lemma calls_start gs0 reg : calls gs0 gs0 reg.
Proof. intros i a Hi. by exists (G_getConnArray a). Qed.

End CallsFacts.

(** X10. Goroutines calling [getConnArray] for any addresses and
    [closeConns], interleaved in any way on a fresh client: a call that
    returns an array returns the one registered for its address, so two
    successful calls return the same array exactly when they asked for the
    same address. *)
Theorem getConnArray_returns_registered
    (dial_result : trace → string → option error)
    (close_result : trace → conn → option error)
    (range : map_range)
    (sched : list nat) (gs0 : list goroutine) :
  let gs := (run dial_result close_result range sched gs0 fresh).1 in
  let st := (run dial_result close_result range sched gs0 fresh).2 in
  (∀ i a l,
     gs0 !! i = Some (G_getConnArray a) →
     gs !! i = Some (G_returned (Some (Ok l))) →
     conns (client st) !! a = Some l)
  ∧ (∀ i j a b l1 l2,
       gs0 !! i = Some (G_getConnArray a) →
       gs0 !! j = Some (G_getConnArray b) →
       gs !! i = Some (G_returned (Some (Ok l1))) →
       gs !! j = Some (G_returned (Some (Ok l2))) →
       l1 = l2 ↔ a = b).
Proof.
  intros gs st.
  assert (Hreg : ∀ i a l,
     gs0 !! i = Some (G_getConnArray a) →
     gs !! i = Some (G_returned (Some (Ok l))) →
     conns (client st) !! a = Some l).
  { intros i a l Hi Hret.
    destruct (run_calls dial_result close_result range gs0 sched gs0 fresh
                (calls_start gs0 _) i a Hi) as (g & Hg & Hget).
    fold gs st in Hg, Hget. rewrite Hret in Hg. injection Hg as <-. exact Hget. }
  split; [exact Hreg|].
  intros i j a b l1 l2 Hi Hj Hri Hrj.
  pose proof (Hreg i a l1 Hi Hri) as Ha.
  pose proof (Hreg j b l2 Hj Hrj) as Hb.
  pose proof (run_invariant dial_result close_result range pool_inv
                (step_pool_inv dial_result close_result range)
                sched gs0 fresh fresh_pool_inv) as Hinv.
  fold st in Hinv. split.
  - intros <-. destruct (Hinv a l1 Ha) as [Hinj _]. symmetry. by apply Hinj.
  - intros <-. congruence.
Qed.

(** X11. When the number of slots divides 2^32 (a power of two below
    2^32), the wrap-around of the counter is invisible: for every counter
    value [c], the [i]-th following call of [Get] returns slot
    [(c + i) mod k]. *)
Theorem Get_round_robin_divides (a : connArray) :
  let k := Z.of_nat (length (v a)) in
  let c := index a in
  1 ≤ k < uint32_max →
  (k | uint32_max) →
  ∀ n i, (1 ≤ i ≤ n)%nat →
    ∃ slot,
      v a !! Z.to_nat ((c + Z.of_nat i) mod k) = Some slot
      ∧ fst (Gets n a) !! (i - 1)%nat = Some (Ret slot).
Proof.
  intros k c Hk Hdiv n i Hi.
  assert (Hu : uint32 k = k) by (apply uint32_small; lia).
  destruct (Gets_lookup n a (i - 1)) as (slot & Hslot & Hget);
    [fold k; lia|lia|].
  exists slot. split; [|done].
  fold k c in Hslot. rewrite Hu in Hslot. unfold uint32 in Hslot.
  replace (c + (1 + Z.of_nat (i - 1))) with (c + Z.of_nat i) in Hslot by lia.
  by rewrite Z.mod_mod_divide in Hslot.
Qed.

(** ** One goroutine: shutting down is clean and final *)

Section SequentialFacts.

Variable dial_result : trace → string → option error.
Variable close_result : trace → conn → option error.
Variable range : map_range.

Lemma do_call_torn_down c st :
  torn_down st → torn_down (do_call dial_result close_result range c st).
Proof.
  intros [Hleak Hclosed]. destruct c as [addr|]; cbn [do_call].
  - destruct (getConnArray_cases dial_result close_result addr st)
      as [[Hc ->]|[Hopen ->]]; [by split|].
    destruct (createConnArray_cases dial_result close_result addr st)
      as [(l & Hreg & ->)|[(Hreg & Hok & ->)|(Hreg & i & err & Hi & Hok & ->)]];
      cbn [snd].
    + by split.
    + split; [by apply built_no_leak|].
      unfold built at 1. cbn [client isClosed]. congruence.
    + split; [by apply abandoned_no_leak|].
      unfold abandoned at 1. cbn [client]. congruence.
  - destruct (isClosed (client st)) eqn:Hc.
    + rewrite closeConns_closed by done.
      split; [done|]. intros _. by apply Hclosed.
    + assert (Hnone : ∀ c, ¬ is_open (net (closeConns close_result range st)) c)
        by (intros c; by apply closeConns_nothing_open).
      split; [|done]. intros c Hopen. by destruct (Hnone c).
Qed.

Lemma do_calls_torn_down cs st :
  torn_down st → torn_down (do_calls dial_result close_result range cs st).
Proof.
  revert st. induction cs as [|c cs IH]; intros st Hst; [done|].
  cbn [do_calls]. by apply IH, do_call_torn_down.
Qed.

Lemma do_calls_closed cs st :
  isClosed (client st) = true →
  do_calls dial_result close_result range cs st = st.
Proof.
  intros Hc. induction cs as [|c cs IH]; [done|].
  cbn [do_calls]. destruct c as [addr|]; cbn [do_call].
  - unfold getConnArray. by rewrite Hc.
  - by rewrite closeConns_closed.
Qed.

Lemma fresh_torn_down : torn_down fresh.
Proof. split; [apply fresh_no_leak|done]. Qed.

End SequentialFacts.

(** X13. When the calls of [getConnArray] and [closeConns] are made one
    after the other on a fresh client, shutting down is clean and final:
    as soon as the pool is closed no connection is open, and no later call
    changes the pool in any way. *)
Theorem sequential_shutdown_clean
    (dial_result : trace → string → option error)
    (close_result : trace → conn → option error)
    (range : map_range) (cs later : list call) :
  let st := do_calls dial_result close_result range cs fresh in
  isClosed (client st) = true →
  (∀ c, ¬ is_open (net st) c)
  ∧ do_calls dial_result close_result range later st = st.
Proof.
  intros st Hclosed. split.
  - by apply (do_calls_torn_down dial_result close_result range cs fresh
                fresh_torn_down).
  - by apply do_calls_closed.
Qed.

(** ** Many calls of [Get] *)

Lemma Get_snd a : snd (Get a) = mkConnArray (uint32 (index a + 1)) (v a).
Proof.
  unfold Get. destruct (decide _); [done|]. by destruct (v a !! _).
Qed.

Lemma Gets_snd n a :
  0 ≤ index a < uint32_max →
  snd (Gets n a) = mkConnArray (uint32 (index a + Z.of_nat n)) (v a).
Proof.
  revert a. induction n as [|n IH]; intros a Hc.
  - cbn [Gets snd]. rewrite Z.add_0_r, uint32_small by done. by destruct a.
  - cbn [Gets]. pose proof (Get_snd a) as Hget.
    destruct (Get a) as [r a1]. cbn [snd] in Hget. subst a1.
    specialize (IH (mkConnArray (uint32 (index a + 1)) (v a))
                   (uint32_range _)).
    destruct (Gets n _) as [rs a2]. cbn [snd index v] in *.
    rewrite IH, uint32_succ. do 2 f_equal. lia.
Qed.

Lemma Gets_app n m a :
  fst (Gets (n + m) a) = fst (Gets n a) ++ fst (Gets m (snd (Gets n a))).
Proof.
  revert a. induction n as [|n IH]; intros a; [done|].
  cbn [Nat.add Gets]. destruct (Get a) as [r a1]. specialize (IH a1).
  destruct (Gets (n + m) a1) as [rs a2]. destruct (Gets n a1) as [rs1 a3].
  cbn [fst snd] in *. by rewrite IH.
Qed.

(** One round: as many calls as there are slots, without wrap-around. *)
Lemma Gets_round a :
  1 ≤ Z.of_nat (length (v a)) < uint32_max →
  0 ≤ index a →
  index a + Z.of_nat (length (v a)) < uint32_max →
  fst (Gets (length (v a)) a)
  = Ret <$> rotate (Z.to_nat ((index a + 1) mod Z.of_nat (length (v a)))) (v a).
Proof.
  intros Hk Hc Hno. set (k := Z.of_nat (length (v a))) in *.
  assert (Hn : uint32 (Z.of_nat (length (v a))) ≠ 0).
  { fold k. rewrite uint32_small; lia. }
  apply list_eq. intros i.
  destruct (decide (i < length (v a))%nat) as [Hi|Hi].
  - destruct (Gets_lookup (length (v a)) a i Hn Hi) as (slot & Hslot & ->).
    fold k in Hslot. rewrite (uint32_small k) in Hslot by lia.
    rewrite uint32_small in Hslot by lia.
    rewrite list_lookup_fmap, lookup_rotate_r by done.
    unfold rotate_nat_add. fold k.
    rewrite Z2Nat.id by (apply Z.mod_pos_bound; lia).
    rewrite Zplus_mod_idemp_l.
    replace (index a + 1 + Z.of_nat i) with (index a + (1 + Z.of_nat i)) by lia.
    by rewrite Hslot.
  - rewrite !lookup_ge_None_2; [done| |].
    + rewrite length_fmap, length_rotate. lia.
    + rewrite Gets_length. lia.
Qed.

Lemma rotate_Permutation {A} n (l : list A) : rotate n l ≡ₚ l.
Proof.
  unfold rotate. rewrite Permutation_app_comm. by rewrite take_drop.
Qed.

(** X14. [m] rounds of calls of [Get] on an array of [k] slots,
    [1 <= k < 2^32], return every slot exactly [m] times, as long as the
    counter does not wrap around during these [m * k] calls. *)
Theorem Gets_uniform (m : nat) (a : connArray) :
  1 ≤ Z.of_nat (length (v a)) < uint32_max →
  0 ≤ index a →
  index a + Z.of_nat (m * length (v a)) < uint32_max →
  fst (Gets (m * length (v a)) a) ≡ₚ Ret <$> mjoin (replicate m (v a)).
Proof.
  revert a. induction m as [|m IH]; intros a Hk Hc Hno; [done|].
  cbn [Nat.mul replicate mjoin list_join]. rewrite Gets_app, fmap_app.
  assert (Hround : index a + Z.of_nat (length (v a)) < uint32_max) by lia.
  rewrite Gets_round by done. rewrite Gets_snd by lia.
  rewrite uint32_small by lia.
  specialize (IH (mkConnArray (index a + Z.of_nat (length (v a))) (v a))).
  cbn [v index] in IH. rewrite IH by lia.
  by rewrite rotate_Permutation.
Qed.

(** ** The further properties at concrete inputs *)

(** One call for "A" on a fresh client, then twenty-five calls of [Get]. *)
Lemma registered_arrays_live_witness :
  let st := (run dial_always_ok close_always_ok canonical_range [0; 0]%nat
                 [G_getConnArray "A"] fresh).2 in
  isClosed (client st) = false
  ∧ conns (client st) !! "A" = Some 0%nat
  ∧ ∃ a, heap st !! 0%nat = Some a
         ∧ Forall (λ r, ∃ c, r = Ret (Some c) ∧ is_open (net st) c)
                  (fst (Gets 25 (mkConnArray 7 (v a)))).
Proof.
  intros st.
  assert (Hopen : isClosed (client st) = false) by (vm_compute; reflexivity).
  assert (Hreg : conns (client st) !! "A" = Some 0%nat) by (vm_compute; reflexivity).
  split; [exact Hopen|]. split; [exact Hreg|].
  destruct (registered_arrays_live dial_always_ok close_always_ok canonical_range
              [0; 0]%nat [G_getConnArray "A"] "A" 0%nat Hopen Hreg)
    as (a & b & Ha & _ & _ & Hgets).
  exists a. split; [exact Ha|exact (Hgets 7 25%nat)].
Defined.

(** Two addresses on a fresh client. *)
Lemma registered_arrays_distinct_witness :
  let st := (run dial_always_ok close_always_ok canonical_range
                 [0; 1; 0; 1]%nat
                 [G_getConnArray "A"; G_getConnArray "B"] fresh).2 in
  conns (client st) !! "A" = Some 0%nat
  ∧ (conns (client st) !! "B" = Some 0%nat → "B" = "A")
  ∧ ∃ a, heap st !! 0%nat = Some a ∧ length (v a) = 10%nat.
Proof.
  intros st.
  assert (Hreg : conns (client st) !! "A" = Some 0%nat) by (vm_compute; reflexivity).
  split; [exact Hreg|].
  exact (registered_arrays_distinct dial_always_ok close_always_ok canonical_range
           [0; 1; 0; 1]%nat [G_getConnArray "A"; G_getConnArray "B"]
           "A" "B" 0%nat Hreg).
Defined.

(** An open pool with "A" registered, shut down. *)
Lemma closeConns_shuts_down_witness :
  let st := snd (getConnArray dial_always_ok close_always_ok "A" fresh) in
  let st1 := closeConns close_always_ok canonical_range st in
  isClosed (client st) = false
  ∧ isClosed (client st1) = true
  ∧ conns (client st1) = conns (client st)
  ∧ dial_log (net st1) = dial_log (net st).
Proof.
  intros st st1.
  assert (Hopen : isClosed (client st) = false) by (vm_compute; reflexivity).
  split; [exact Hopen|].
  destruct (closeConns_shuts_down close_always_ok canonical_range st Hopen)
    as (Hclosed & Hreg & Hdial & _).
  split; [exact Hclosed|]. split; [exact Hreg|exact Hdial].
Defined.

(** "A" stays registered through a shutdown and another call. *)
Lemma registry_stable_witness :
  let st := snd (getConnArray dial_always_ok close_always_ok "A" fresh) in
  conns (client st) !! "A" = Some 0%nat
  ∧ conns (client (run dial_always_ok close_always_ok canonical_range
                       [0; 1; 1]%nat [G_closeConns; G_getConnArray "B"] st).2)
      !! "A" = Some 0%nat.
Proof.
  intros st.
  assert (Hreg : conns (client st) !! "A" = Some 0%nat) by (vm_compute; reflexivity).
  split; [exact Hreg|].
  exact (registry_stable dial_always_ok close_always_ok canonical_range
           [0; 1; 1]%nat [G_closeConns; G_getConnArray "B"] st "A" 0%nat Hreg).
Defined.

(** A call for "B" on a pool that holds "A". *)
Lemma getConnArray_preserves_witness :
  let st := snd (getConnArray dial_always_ok close_always_ok "A" fresh) in
  let st1 := snd (getConnArray dial_always_ok close_always_ok "B" st) in
  "A" ≠ "B"
  ∧ conns (client st1) !! "A" = conns (client st) !! "A"
  ∧ heap st `prefix_of` heap st1.
Proof.
  intros st st1.
  assert (Hne : "A" ≠ "B") by discriminate.
  split; [exact Hne|].
  destruct (getConnArray_preserves dial_always_ok close_always_ok "B" st)
    as (_ & Hheap & _ & Hothers & _).
  split; [exact (Hothers "A" Hne)|exact Hheap].
Defined.

(** A fresh client and a first dial that fails. *)
Lemma getConnArray_error_no_leak_witness :
  let st1 := snd (getConnArray dial_first_fails close_always_ok "A" fresh) in
  getConnArray dial_first_fails close_always_ok "A" fresh
  = (Err (TransportError 1), st1)
  ∧ client st1 = client fresh
  ∧ ∀ c, is_open (net st1) c ↔ is_open (net fresh) c.
Proof.
  intros st1.
  assert (Hget : getConnArray dial_first_fails close_always_ok "A" fresh
                 = (Err (TransportError 1), st1)) by (vm_compute; reflexivity).
  split; [exact Hget|].
  exact (getConnArray_error_no_leak dial_first_fails close_always_ok "A" fresh st1
           (TransportError 1) Hget).
Defined.

(** A call that builds the array, then one that finds it. *)
Lemma getConnArray_dials_witness :
  let st := snd (getConnArray dial_always_ok close_always_ok "A" fresh) in
  is_Some (conns (client st) !! "A")
  ∧ snd (getConnArray dial_always_ok close_always_ok "A" st) = st
  ∧ (length (heap st) ≤ 1)%nat.
Proof.
  intros st.
  assert (Hreg : is_Some (conns (client st) !! "A")) by (by exists 0%nat).
  split; [exact Hreg|].
  destruct (getConnArray_dials dial_always_ok close_always_ok "A" st)
    as (_ & _ & Hsame).
  destruct (getConnArray_dials dial_always_ok close_always_ok "A" fresh)
    as (_ & Hheap & _).
  split; [exact (Hsame (or_intror Hreg))|exact Hheap].
Defined.


(** A closed pool, one more call of each entry point. *)
Lemma closed_pool_frozen_witness :
  let st := closeConns close_always_ok canonical_range fresh in
  isClosed (client st) = true
  ∧ Forall (λ g, ∀ a, g ≠ G_createConnArray a) [G_getConnArray "A"; G_closeConns]
  ∧ (run dial_always_ok close_always_ok canonical_range [0; 1; 0]%nat
         [G_getConnArray "A"; G_closeConns] st).2 = st.
Proof.
  intros st.
  assert (Hclosed : isClosed (client st) = true) by reflexivity.
  assert (Hgs : Forall (λ g, ∀ a, g ≠ G_createConnArray a)
                  [G_getConnArray "A"; G_closeConns])
    by (repeat constructor; discriminate).
  split; [exact Hclosed|]. split; [exact Hgs|].
  destruct (closed_pool_frozen dial_always_ok close_always_ok canonical_range
              [0; 1; 0]%nat [G_getConnArray "A"; G_closeConns] st Hclosed Hgs)
    as [Hsame _].
  exact Hsame.
Defined.

(** Three goroutines, two of them asking for "A". *)
Lemma getConnArray_returns_registered_witness :
  let gs0 := [G_getConnArray "A"; G_getConnArray "B"; G_getConnArray "A"] in
  let sched := [0; 1; 2; 2; 1; 0]%nat in
  let gs := (run dial_always_ok close_always_ok canonical_range sched gs0 fresh).1 in
  let st := (run dial_always_ok close_always_ok canonical_range sched gs0 fresh).2 in
  gs0 !! 0%nat = Some (G_getConnArray "A")
  ∧ gs !! 0%nat = Some (G_returned (Some (Ok 0%nat)))
  ∧ conns (client st) !! "A" = Some 0%nat.
Proof.
  intros gs0 sched gs st.
  assert (H0 : gs0 !! 0%nat = Some (G_getConnArray "A")) by reflexivity.
  assert (Hret : gs !! 0%nat = Some (G_returned (Some (Ok 0%nat))))
    by (vm_compute; reflexivity).
  split; [exact H0|]. split; [exact Hret|].
  destruct (getConnArray_returns_registered dial_always_ok close_always_ok
              canonical_range sched gs0) as [Hreg _].
  exact (Hreg 0%nat "A" 0%nat H0 Hret).
Defined.

(** Four slots and the counter at its last value before the wrap-around. *)
Lemma Get_round_robin_divides_witness :
  let a := mkConnArray (2 ^ 32 - 1)
             [Some 0%nat; Some 1%nat; Some 2%nat; Some 3%nat] in
  1 ≤ Z.of_nat (length (v a)) < uint32_max
  ∧ (Z.of_nat (length (v a)) | uint32_max)
  ∧ ∃ slot,
      v a !! Z.to_nat ((index a + Z.of_nat 2) mod Z.of_nat (length (v a)))
        = Some slot
      ∧ fst (Gets 2 a) !! 1%nat = Some (Ret slot).
Proof.
  intros a.
  assert (Hk : 1 ≤ Z.of_nat (length (v a)) < uint32_max)
    by (vm_compute; split; congruence).
  assert (Hdiv : (Z.of_nat (length (v a)) | uint32_max))
    by (exists (2 ^ 30); reflexivity).
  split; [exact Hk|]. split; [exact Hdiv|].
  apply (Get_round_robin_divides a Hk Hdiv 2%nat 2%nat). lia.
Defined.

(** An open pool with "A" registered, shut down: nothing stays open. *)
Lemma no_connection_leaks_witness :
  let st := (run dial_always_ok close_always_ok canonical_range [0; 0]%nat
                 [G_getConnArray "A"] fresh).2 in
  isClosed (client st) = false
  ∧ ∀ c, ¬ is_open (net (closeConns close_always_ok canonical_range st)) c.
Proof.
  intros st.
  assert (Hopen : isClosed (client st) = false) by (vm_compute; reflexivity).
  split; [exact Hopen|].
  destruct (no_connection_leaks dial_always_ok close_always_ok canonical_range
              [0; 0]%nat [G_getConnArray "A"]) as [_ Hclean].
  exact (Hclean Hopen).
Defined.

(** Open "A", shut down, then call both entry points again. *)
Lemma sequential_shutdown_clean_witness :
  let cs := [Call_getConnArray "A"; Call_closeConns] in
  let later := [Call_getConnArray "B"; Call_closeConns] in
  let st := do_calls dial_always_ok close_always_ok canonical_range cs fresh in
  isClosed (client st) = true
  ∧ (∀ c, ¬ is_open (net st) c)
  ∧ do_calls dial_always_ok close_always_ok canonical_range later st = st.
Proof.
  intros cs later st.
  assert (Hclosed : isClosed (client st) = true) by (vm_compute; reflexivity).
  split; [exact Hclosed|].
  exact (sequential_shutdown_clean dial_always_ok close_always_ok canonical_range
           cs later Hclosed).
Defined.

(** Two rounds on three slots. *)
Lemma Gets_uniform_witness :
  let a := mkConnArray 0 [Some 0%nat; Some 1%nat; Some 2%nat] in
  1 ≤ Z.of_nat (length (v a)) < uint32_max
  ∧ 0 ≤ index a
  ∧ index a + Z.of_nat (2 * length (v a)) < uint32_max
  ∧ fst (Gets 6 a) ≡ₚ Ret <$> (v a ++ v a).
Proof.
  intros a.
  assert (Hk : 1 ≤ Z.of_nat (length (v a)) < uint32_max)
    by (vm_compute; split; congruence).
  assert (Hc : 0 ≤ index a) by (vm_compute; congruence).
  assert (Hno : index a + Z.of_nat (2 * length (v a)) < uint32_max)
    by (vm_compute; congruence).
  split; [exact Hk|]. split; [exact Hc|]. split; [exact Hno|].
  exact (Gets_uniform 2 a Hk Hc Hno).
Defined.
